(** * BLAKE2s (sys/crypto/blake2s.c): a shallow embedding and its properties

    The C functions of [blake2s.c] are embedded as Rocq functions over [Z]
    (32-bit words and bytes, with the wrap-around written out) and lists of
    bytes (memory areas).  A pointer into a buffer together with a length
    is a list; [memcpy] and [memset] are list surgery. *)

From Stdlib Require Import String Ascii ZArith List Lia Bool.
Import ListNotations.
Open Scope Z_scope.

(** ** Machine integers *)

Definition wrap32 (z : Z) : Z := z mod 2 ^ 32.

(** [size_t] is taken 32 bits wide, as on the Cortex-M targets.  Its width
    is only observable when [buflen] exceeds the buffer size. *)
Definition size_t (z : Z) : Z := z mod 2 ^ 32.

Definition u8 (z : Z) : Z := z mod 2 ^ 8.

(** The byte order of the machine the code runs on.  [load32] and [store32]
    access memory through a [uint32_t] pointer, so what they compute depends
    on it. *)
Inductive byte_order : Type := LittleEndian | BigEndian.

(** The value of a [uint32_t] object whose storage holds the given bytes. *)
Definition word_of_bytes (host : byte_order) (bs : list Z) : Z :=
  let b i := nth i bs 0 in
  match host with
  | LittleEndian => b 0%nat + 2 ^ 8 * b 1%nat + 2 ^ 16 * b 2%nat + 2 ^ 24 * b 3%nat
  | BigEndian => b 3%nat + 2 ^ 8 * b 2%nat + 2 ^ 16 * b 1%nat + 2 ^ 24 * b 0%nat
  end.

(** The storage of a [uint32_t] object holding [w]. *)
Definition bytes_of_word (host : byte_order) (w : Z) : list Z :=
  let le := [u8 w; u8 (Z.shiftr w 8); u8 (Z.shiftr w 16); u8 (Z.shiftr w 24)] in
  match host with
  | LittleEndian => le
  | BigEndian => rev le
  end.

(** ** Memory areas *)

(** [memcpy (dst + off, src, n)]: the area [dst] after the call. *)
Definition memcpy (dst : list Z) (off : nat) (src : list Z) (n : nat) : list Z :=
  firstn off dst ++ firstn n src ++ skipn (off + n) dst.

(** [memset (dst + off, c, n)]: the area [dst] after the call. *)
Definition memset (dst : list Z) (off : nat) (c : Z) (n : nat) : list Z :=
  firstn off dst ++ repeat c n ++ skipn (off + n) dst.

(** Array update [a[i] = x]. *)
Fixpoint upd (i : nat) (x : Z) (a : list Z) : list Z :=
  match a, i with
  | [], _ => []
  | _ :: a', O => x :: a'
  | y :: a', S i' => y :: upd i' x a'
  end.

Definition idx (a : list Z) (i : nat) : Z := nth i a 0.

(** ** Constants *)

(** Modelled from the spec: the constants of the header crypto/blake2s.h,
    which is not part of the sources: block size 64 bytes, max output size
    32 bytes, max key size 32 bytes, salt and personalization 8 bytes. *)
Definition BLAKE2S_BLOCKBYTES : Z := 64.
Definition BLAKE2S_OUTBYTES : Z := 32.
Definition BLAKE2S_KEYBYTES : Z := 32.
Definition BLAKE2S_SALTBYTES : Z := 8.
Definition BLAKE2S_PERSONALBYTES : Z := 8.

Definition blake2s_IV : list Z :=
  [ 0x6A09E667; 0xBB67AE85; 0x3C6EF372; 0xA54FF53A;
    0x510E527F; 0x9B05688C; 0x1F83D9AB; 0x5BE0CD19 ].

Definition blake2s_sigma : list (list nat) :=
  [ [  0;  1;  2;  3;  4;  5;  6;  7;  8;  9; 10; 11; 12; 13; 14; 15 ];
    [ 14; 10;  4;  8;  9; 15; 13;  6;  1; 12;  0;  2; 11;  7;  5;  3 ];
    [ 11;  8; 12;  0;  5;  2; 15; 13; 10; 14;  3;  6;  7;  1;  9;  4 ];
    [  7;  9;  3;  1; 13; 12; 11; 14;  2;  6;  5; 10;  4;  0; 15;  8 ];
    [  9;  0;  5;  7;  2;  4; 10; 15; 14;  1; 11; 12;  6;  8;  3; 13 ];
    [  2; 12;  6; 10;  0; 11;  8;  3;  4; 13;  7;  5; 15; 14;  1;  9 ];
    [ 12;  5;  1; 15; 14; 13;  4; 10;  0;  7;  6;  3;  9;  2;  8; 11 ];
    [ 13; 11;  7; 14; 12;  1;  3;  9;  5;  0; 15;  4;  8;  6;  2; 10 ];
    [  6; 15; 14;  9; 11;  3;  0;  8; 12;  2; 13;  7;  1;  4; 10;  5 ];
    [ 10;  2;  8;  4;  7;  6;  1;  5; 15; 11;  9; 14;  3; 12; 13;  0 ] ]%nat.

Definition sigma (r i : nat) : nat := nth i (nth r blake2s_sigma []) 0%nat.

(** ** Byte access helpers of the C file *)

(** [load32]: [*(uint32_t * )(src)], a read in the host's byte order. *)
Definition load32 (host : byte_order) (src : list Z) : Z :=
  word_of_bytes host (firstn 4 src).

(** [store32]: [*(uint32_t * )(dst) = w]; the four bytes written. *)
Definition store32 (host : byte_order) (w : Z) : list Z :=
  bytes_of_word host w.

(** [store48]: six bytes, least significant first, written one by one. *)
Definition store48 (w : Z) : list Z :=
  [ u8 w; u8 (Z.shiftr w 8); u8 (Z.shiftr w 16);
    u8 (Z.shiftr w 24); u8 (Z.shiftr w 32); u8 (Z.shiftr w 40) ].

Definition rotr32 (w c : Z) : Z :=
  Z.lor (Z.shiftr w c) (wrap32 (Z.shiftl w (32 - c))).

Definition secure_zero_memory (v : list Z) (n : nat) : list Z :=
  memset v 0 0 n.

(** ** The state *)

(** One call of [blake2s_compress], recorded for the claims that speak of
    the invocations of the compression function: the 64 bytes it loaded
    through its [block] argument, and [S->buf], [S->buflen] at the call. *)
Record compress_call : Type := mk_call {
  call_block : list Z;
  call_buf : list Z;
  call_buflen : Z
}.

(** Modelled from the spec: [blake2s_state] is declared in the header
    crypto/blake2s.h, which is not part of the sources; the fields are the
    ones the C file accesses.  [calls] is a ghost field, absent from the C
    struct: the calls of [blake2s_compress] on this state, oldest first. *)
Record blake2s_state : Type := mk_state {
  h : list Z;          (* uint32_t h[8] *)
  t : list Z;          (* uint32_t t[2] *)
  f : list Z;          (* uint32_t f[2] *)
  buf : list Z;        (* uint8_t buf[2 * BLAKE2S_BLOCKBYTES] *)
  buflen : Z;          (* size_t buflen *)
  last_node : Z;       (* uint8_t last_node *)
  calls : list compress_call
}.

Definition set_h (st : blake2s_state) (x : list Z) : blake2s_state :=
  mk_state x (t st) (f st) (buf st) (buflen st) (last_node st) (calls st).
Definition set_t (st : blake2s_state) (x : list Z) : blake2s_state :=
  mk_state (h st) x (f st) (buf st) (buflen st) (last_node st) (calls st).
Definition set_f (st : blake2s_state) (x : list Z) : blake2s_state :=
  mk_state (h st) (t st) x (buf st) (buflen st) (last_node st) (calls st).
Definition set_buf (st : blake2s_state) (x : list Z) : blake2s_state :=
  mk_state (h st) (t st) (f st) x (buflen st) (last_node st) (calls st).
Definition set_buflen (st : blake2s_state) (x : Z) : blake2s_state :=
  mk_state (h st) (t st) (f st) (buf st) x (last_node st) (calls st).
Definition log_call (st : blake2s_state) (c : compress_call) : blake2s_state :=
  mk_state (h st) (t st) (f st) (buf st) (buflen st) (last_node st)
           (calls st ++ [c]).

(** Modelled from the spec: [blake2s_param] is declared in the header
    crypto/blake2s.h, which is not part of the sources: a packed 32-byte
    layout with the fields in this order. *)
Record blake2s_param : Type := mk_param {
  digest_length : Z;        (* 1 byte *)
  key_length : Z;           (* 1 byte *)
  fanout : Z;               (* 1 byte *)
  depth : Z;                (* 1 byte *)
  leaf_length : list Z;     (* 4 bytes, written by store32 *)
  node_offset : list Z;     (* 6 bytes, written by store48 *)
  node_depth : Z;           (* 1 byte *)
  inner_length : Z;         (* 1 byte *)
  salt : list Z;            (* 8 bytes *)
  personal : list Z         (* 8 bytes *)
}.

(** The 32 bytes of the parameter block in memory. *)
Definition param_bytes (P : blake2s_param) : list Z :=
  [digest_length P; key_length P; fanout P; depth P]
    ++ leaf_length P ++ node_offset P
    ++ [node_depth P; inner_length P] ++ salt P ++ personal P.

(** Results of the functions that return [-1] on a bad parameter. *)
Inductive result (A : Type) : Type :=
| Ok (a : A)
| InvalidParameter.
Arguments Ok {A} a.
Arguments InvalidParameter {A}.

(** ** State flags and counter *)

Definition blake2s_set_lastnode (st : blake2s_state) : blake2s_state :=
  set_f st (upd 1 (2 ^ 32 - 1) (f st)).

Definition blake2s_set_lastblock (st : blake2s_state) : blake2s_state :=
  let st := if last_node st =? 0 then st else blake2s_set_lastnode st in
  set_f st (upd 0 (2 ^ 32 - 1) (f st)).

Definition blake2s_increment_counter (st : blake2s_state) (inc : Z) : blake2s_state :=
  let t0 := wrap32 (idx (t st) 0 + inc) in
  let st := set_t st (upd 0 t0 (t st)) in
  let carry := if idx (t st) 0 <? inc then 1 else 0 in
  set_t st (upd 1 (wrap32 (idx (t st) 1 + carry)) (t st)).

(** The 64-bit counter held in [t[0]], [t[1]]. *)
Definition counter (st : blake2s_state) : Z :=
  idx (t st) 1 * 2 ^ 32 + idx (t st) 0.

(** ** Initialization *)

Definition blake2s_init0 : blake2s_state :=
  let st := mk_state (repeat 0 8) (repeat 0 2) (repeat 0 2)
                     (repeat 0 128) 0 0 [] in
  set_h st blake2s_IV.

Section Host.

Variable host : byte_order.

(** [blake2s_init_param] always returns 0; the embedding returns the state
    it leaves in [S]. *)
Definition blake2s_init_param (P : blake2s_param) : blake2s_state :=
  let st := blake2s_init0 in
  let p := param_bytes P in
  set_h st (map (fun i => Z.lxor (idx (h st) i)
                                 (load32 host (skipn (4 * i) p)))
                (seq 0 8)).

Definition blake2s_init (outlen : Z) : result blake2s_state :=
  if (outlen =? 0) || (outlen >? BLAKE2S_OUTBYTES) then InvalidParameter
  else
    let P := mk_param outlen 0 1 1 (store32 host 0) (store48 0) 0 0
                      (repeat 0 8) (repeat 0 8) in
    Ok (blake2s_init_param P).

(** ** Compression *)

(** Modelled from the spec: the macro G of the header crypto/blake2s.h,
    which is not part of the sources: two message words selected by the
    round's permutation are combined with four working-vector words by
    32-bit addition, XOR and right rotation by 16, 12, 8 and 7 bits, in
    the order of the BLAKE2s mixing function. *)
Definition G (m : list Z) (r i : nat) (a b c d : nat) (v : list Z) : list Z :=
  let va := idx v a in let vb := idx v b in
  let vc := idx v c in let vd := idx v d in
  let va := wrap32 (wrap32 (va + vb) + idx m (sigma r (2 * i + 0))) in
  let vd := rotr32 (Z.lxor vd va) 16 in
  let vc := wrap32 (vc + vd) in
  let vb := rotr32 (Z.lxor vb vc) 12 in
  let va := wrap32 (wrap32 (va + vb) + idx m (sigma r (2 * i + 1))) in
  let vd := rotr32 (Z.lxor vd va) 8 in
  let vc := wrap32 (vc + vd) in
  let vb := rotr32 (Z.lxor vb vc) 7 in
  upd d vd (upd c vc (upd b vb (upd a va v))).

(** Modelled from the spec: the macro BLAKE2S_ROUND of the header
    crypto/blake2s.h, which is not part of the sources: G on the four
    columns, then on the four diagonals of the 4x4 working vector. *)
Definition BLAKE2S_ROUND (m : list Z) (r : nat) (v : list Z) : list Z :=
  let v := G m r 0 0 4 8 12 v in
  let v := G m r 1 1 5 9 13 v in
  let v := G m r 2 2 6 10 14 v in
  let v := G m r 3 3 7 11 15 v in
  let v := G m r 4 0 5 10 15 v in
  let v := G m r 5 1 6 11 12 v in
  let v := G m r 6 2 7 8 13 v in
  let v := G m r 7 3 4 9 14 v in
  v.

(** The bytes the sixteen [load32 (block + i * sizeof (m[i]))] of
    [blake2s_compress] read. *)
Definition loaded_bytes (block : list Z) : list Z :=
  flat_map (fun i => firstn 4 (skipn (i * 4) block)) (seq 0 16).

Definition blake2s_compress (st : blake2s_state) (block : list Z) : blake2s_state :=
  let m := map (fun i => load32 host (skipn (i * 4) block)) (seq 0 16) in
  let v := map (fun i => idx (h st) i) (seq 0 8)
           ++ [ idx blake2s_IV 0; idx blake2s_IV 1;
                idx blake2s_IV 2; idx blake2s_IV 3;
                Z.lxor (idx (t st) 0) (idx blake2s_IV 4);
                Z.lxor (idx (t st) 1) (idx blake2s_IV 5);
                Z.lxor (idx (f st) 0) (idx blake2s_IV 6);
                Z.lxor (idx (f st) 1) (idx blake2s_IV 7) ] in
  let v := BLAKE2S_ROUND m 0 v in
  let v := BLAKE2S_ROUND m 1 v in
  let v := BLAKE2S_ROUND m 2 v in
  let v := BLAKE2S_ROUND m 3 v in
  let v := BLAKE2S_ROUND m 4 v in
  let v := BLAKE2S_ROUND m 5 v in
  let v := BLAKE2S_ROUND m 6 v in
  let v := BLAKE2S_ROUND m 7 v in
  let v := BLAKE2S_ROUND m 8 v in
  let v := BLAKE2S_ROUND m 9 v in
  let st := log_call st (mk_call (loaded_bytes block) (buf st) (buflen st)) in
  set_h st (map (fun i => Z.lxor (Z.lxor (idx (h st) i) (idx v i))
                                 (idx v (i + 8)))
                (seq 0 8)).

(** ** Streaming update *)

(** The body of the [if (inlen > fill)] branch of the loop of
    [blake2s_update], with the locals [left] and [fill]. *)
Definition update_block (st : blake2s_state) (inp : list Z) (left fill : Z)
  : blake2s_state :=
  (* Fill buffer *)
  let st := set_buf st (memcpy (buf st) (Z.to_nat left) inp (Z.to_nat fill)) in
  let st := set_buflen st (size_t (buflen st + fill)) in
  let st := blake2s_increment_counter st BLAKE2S_BLOCKBYTES in
  (* Compress buffer *)
  let st := blake2s_compress st (buf st) in
  (* Shift buffer left *)
  let st := set_buf st (memcpy (buf st) 0
                          (skipn (Z.to_nat BLAKE2S_BLOCKBYTES) (buf st))
                          (Z.to_nat BLAKE2S_BLOCKBYTES)) in
  set_buflen st (size_t (buflen st - BLAKE2S_BLOCKBYTES)).

(** The body of the [else] branch ([inlen <= fill]). *)
Definition update_tail (st : blake2s_state) (inp : list Z) (left inlen : Z)
  : blake2s_state :=
  let st := set_buf st (memcpy (buf st) (Z.to_nat left) inp (Z.to_nat inlen)) in
  (* Be lazy, do not compress *)
  set_buflen st (size_t (buflen st + inlen)).

(** The [while (inlen > 0)] loop of [blake2s_update]; [inp] is what is left
    of the input (the [inlen] bytes at [in]), [fuel] bounds the number of
    iterations. *)
Fixpoint update_loop (fuel : nat) (st : blake2s_state) (inp : list Z)
  : blake2s_state :=
  match fuel with
  | O => st
  | S fuel' =>
    let inlen := Z.of_nat (length inp) in
    if inlen >? 0 then
      let left := buflen st in
      let fill := size_t (2 * BLAKE2S_BLOCKBYTES - left) in
      if inlen >? fill then
        update_loop fuel' (update_block st inp left fill)
                    (skipn (Z.to_nat fill) inp)
      else
        update_loop fuel' (update_tail st inp left inlen)
                    (skipn (Z.to_nat inlen) inp)
    else st
  end.

(** Every iteration but the first and the last consumes 64 bytes, so
    [length inp + 2] iterations are never used up (lemma
    [update_loop_fuel]). *)
Definition blake2s_update (st : blake2s_state) (inp : list Z) : blake2s_state :=
  update_loop (S (S (length inp))) st inp.

(** ** Keyed initialization *)

(** [key] is [None] for a NULL pointer; [memcpy (block, key, keylen)] takes
    the first [keylen] bytes of the key, which the caller must provide. *)
Definition blake2s_init_key (outlen : Z) (key : option (list Z)) (keylen : Z)
  : result blake2s_state :=
  if (outlen =? 0) || (outlen >? BLAKE2S_OUTBYTES) then InvalidParameter
  else
    match key with
    | None => InvalidParameter
    | Some k =>
      if (keylen =? 0) || (keylen >? BLAKE2S_KEYBYTES) then InvalidParameter
      else
        let P := mk_param outlen keylen 1 1 (store32 host 0) (store48 0) 0 0
                          (repeat 0 8) (repeat 0 8) in
        let st := blake2s_init_param P in
        let block := repeat 0 (Z.to_nat BLAKE2S_BLOCKBYTES) in
        let block := memcpy block 0 k (Z.to_nat keylen) in
        let st := blake2s_update st block in
        Ok st
    end.

(** The stack copy of the key block of [blake2s_init_key] after
    [secure_zero_memory]. *)
Definition init_key_block_burnt (k : list Z) (keylen : Z) : list Z :=
  let block := repeat 0 (Z.to_nat BLAKE2S_BLOCKBYTES) in
  let block := memcpy block 0 k (Z.to_nat keylen) in
  secure_zero_memory block (Z.to_nat BLAKE2S_BLOCKBYTES).

(** ** Finalization *)

(** [blake2s_final]: the state after the call and the area [out] after the
    call. *)
Definition blake2s_final (st : blake2s_state) (out : list Z) (outlen : Z)
  : blake2s_state * list Z :=
  let st :=
    if buflen st >? BLAKE2S_BLOCKBYTES then
      let st := blake2s_increment_counter st BLAKE2S_BLOCKBYTES in
      let st := blake2s_compress st (buf st) in
      let st := set_buflen st (size_t (buflen st - BLAKE2S_BLOCKBYTES)) in
      set_buf st (memcpy (buf st) 0
                    (skipn (Z.to_nat BLAKE2S_BLOCKBYTES) (buf st))
                    (Z.to_nat (buflen st)))
    else st in
  let st := blake2s_increment_counter st (wrap32 (buflen st)) in
  let st := blake2s_set_lastblock st in
  (* Padding *)
  let st := set_buf st (memset (buf st) (Z.to_nat (buflen st)) 0
                          (Z.to_nat (size_t (2 * BLAKE2S_BLOCKBYTES - buflen st)))) in
  let st := blake2s_compress st (buf st) in
  (* Output full hash to temp buffer *)
  let buffer := flat_map (fun i => store32 host (idx (h st) i)) (seq 0 8) in
  (st, memcpy out 0 buffer (Z.to_nat outlen)).

(** ** One-shot hash *)

(** [blake2s]: [None] stands for a NULL pointer; the result is the area
    [out] after a successful call. *)
Definition blake2s (out : option (list Z)) (inp : option (list Z))
           (key : option (list Z)) (outlen : Z) (keylen : Z)
  : result (list Z) :=
  match inp with
  | None => InvalidParameter
  | Some inb =>
    match out with
    | None => InvalidParameter
    | Some outb =>
      let keylen := match key with None => 0 | Some _ => keylen end in
      let ini := if keylen >? 0 then blake2s_init_key outlen key keylen
                 else blake2s_init outlen in
      match ini with
      | InvalidParameter => InvalidParameter
      | Ok st =>
        let st := blake2s_update st inb in
        Ok (snd (blake2s_final st outb outlen))
      end
    end
  end.

End Host.

(** Lower-case hexadecimal rendering of a byte string. *)
Definition hex_digit (n : Z) : ascii :=
  nth (Z.to_nat n)
      ["0"; "1"; "2"; "3"; "4"; "5"; "6"; "7";
       "8"; "9"; "a"; "b"; "c"; "d"; "e"; "f"]%char "?"%char.

Fixpoint hex (bs : list Z) : string :=
  match bs with
  | [] => EmptyString
  | b :: bs' => String (hex_digit (b / 16)) (String (hex_digit (b mod 16)) (hex bs'))
  end.

(** ** Well-formed states *)

(** What the C types and the buffering guarantee of a state between two
    calls: the buffer has its 128 bytes and [buflen] does not exceed it. *)
Definition state_ok (st : blake2s_state) : Prop :=
  0 <= buflen st <= 128 /\ length (buf st) = 128%nat.

(** The counter array holds two 32-bit words. *)
Definition counter_ok (st : blake2s_state) : Prop :=
  length (t st) = 2%nat
  /\ 0 <= idx (t st) 0 < 2 ^ 32 /\ 0 <= idx (t st) 1 < 2 ^ 32.

(** A sequence of [blake2s_update] calls, one per chunk. *)
Definition update_all (host : byte_order) (st : blake2s_state)
           (chunks : list (list Z)) : blake2s_state :=
  fold_left (blake2s_update host) chunks st.

(** The buffer of [blake2s_update] once filled from the input: the
    buffered bytes followed by the [fill] first bytes of the input. *)
Definition fill_buffer (st : blake2s_state) (inp : list Z) : list Z :=
  firstn (Z.to_nat (buflen st)) (buf st)
  ++ firstn (Z.to_nat (128 - buflen st)) inp.

(** A bound on the iterations the update loop still needs, less one. *)
Definition iterations (st : blake2s_state) (inp : list Z) : nat :=
  length inp + (if buflen st =? 128 then 1 else 0).

(** The caller's sequence [blake2s_init] (or [blake2s_init_key] when a key
    is given), one [blake2s_update] per chunk, [blake2s_final]; the result
    is the area [out] after [blake2s_final]. *)
Definition init_update_final (host : byte_order) (out : list Z)
           (chunks : list (list Z)) (key : option (list Z))
           (outlen keylen : Z) : result (list Z) :=
  let ini := match key with
             | None => blake2s_init host outlen
             | Some _ => blake2s_init_key host outlen key keylen
             end in
  match ini with
  | InvalidParameter => InvalidParameter
  | Ok st => Ok (snd (blake2s_final host (update_all host st chunks) out outlen))
  end.

(** A call of the compression function that consumed a full block from the
    front of the buffer. *)
Definition front_block (c : compress_call) : Prop :=
  length (call_block c) = 64%nat /\ call_block c = firstn 64 (call_buf c).

(** The digest of a successful call, in hexadecimal. *)
Definition digest_hex (r : result (list Z)) : option string :=
  match r with
  | Ok d => Some (hex d)
  | InvalidParameter => None
  end.

(** The 32 bytes [blake2s_final] serializes when [blake2s] runs with digest
    length [outlen]: the calls of [blake2s], except that [blake2s_final] is
    asked for all BLAKE2S_OUTBYTES bytes. *)
Definition blake2s_untruncated (host : byte_order) (inp : list Z)
           (key : option (list Z)) (outlen keylen : Z) : result (list Z) :=
  let keylen := match key with None => 0 | Some _ => keylen end in
  let ini := if keylen >? 0 then blake2s_init_key host outlen key keylen
             else blake2s_init host outlen in
  match ini with
  | InvalidParameter => InvalidParameter
  | Ok st =>
    let st := blake2s_update host st inp in
    Ok (snd (blake2s_final host st (repeat 0 32) BLAKE2S_OUTBYTES))
  end.

(** ** The remaining helpers of the C file *)

Definition blake2s_clear_lastnode (st : blake2s_state) : blake2s_state :=
  set_f st (upd 1 0 (f st)).

Definition blake2s_clear_lastblock (st : blake2s_state) : blake2s_state :=
  let st := if last_node st =? 0 then st else blake2s_clear_lastnode st in
  set_f st (upd 0 0 (f st)).

(** The loop [while (n--) { *p++ = 0; }] of [secure_zero_memory]; [p] is
    the offset the pointer has reached. *)
Fixpoint secure_zero_loop (v : list Z) (p n : nat) : list Z :=
  match n with
  | O => v
  | S n' => secure_zero_loop (upd p 0 v) (S p) n'
  end.

(** The parameter setters; the value arguments are [uint8_t], except for
    the leaf length ([uint32_t]) and the node offset ([uint64_t]). *)
Definition blake2s_param_set_digest_length (P : blake2s_param) (x : Z)
  : blake2s_param :=
  mk_param x (key_length P) (fanout P) (depth P) (leaf_length P)
           (node_offset P) (node_depth P) (inner_length P) (salt P) (personal P).

Definition blake2s_param_set_fanout (P : blake2s_param) (x : Z) : blake2s_param :=
  mk_param (digest_length P) (key_length P) x (depth P) (leaf_length P)
           (node_offset P) (node_depth P) (inner_length P) (salt P) (personal P).

Definition blake2s_param_set_max_depth (P : blake2s_param) (x : Z)
  : blake2s_param :=
  mk_param (digest_length P) (key_length P) (fanout P) x (leaf_length P)
           (node_offset P) (node_depth P) (inner_length P) (salt P) (personal P).

Definition blake2s_param_set_leaf_length (host : byte_order)
           (P : blake2s_param) (x : Z) : blake2s_param :=
  mk_param (digest_length P) (key_length P) (fanout P) (depth P)
           (memcpy (leaf_length P) 0 (store32 host x) 4)
           (node_offset P) (node_depth P) (inner_length P) (salt P) (personal P).

Definition blake2s_param_set_node_offset (P : blake2s_param) (x : Z)
  : blake2s_param :=
  mk_param (digest_length P) (key_length P) (fanout P) (depth P) (leaf_length P)
           (memcpy (node_offset P) 0 (store48 x) 6)
           (node_depth P) (inner_length P) (salt P) (personal P).

Definition blake2s_param_set_node_depth (P : blake2s_param) (x : Z)
  : blake2s_param :=
  mk_param (digest_length P) (key_length P) (fanout P) (depth P) (leaf_length P)
           (node_offset P) x (inner_length P) (salt P) (personal P).

Definition blake2s_param_set_inner_length (P : blake2s_param) (x : Z)
  : blake2s_param :=
  mk_param (digest_length P) (key_length P) (fanout P) (depth P) (leaf_length P)
           (node_offset P) (node_depth P) x (salt P) (personal P).

Definition blake2s_param_set_salt (P : blake2s_param) (x : list Z)
  : blake2s_param :=
  mk_param (digest_length P) (key_length P) (fanout P) (depth P) (leaf_length P)
           (node_offset P) (node_depth P) (inner_length P)
           (memcpy (salt P) 0 x (Z.to_nat BLAKE2S_SALTBYTES)) (personal P).

Definition blake2s_param_set_personal (P : blake2s_param) (x : list Z)
  : blake2s_param :=
  mk_param (digest_length P) (key_length P) (fanout P) (depth P) (leaf_length P)
           (node_offset P) (node_depth P) (inner_length P) (salt P)
           (memcpy (personal P) 0 x (Z.to_nat BLAKE2S_PERSONALBYTES)).

(** ** Notions used by the statements *)

(** A parameter block whose array fields have their declared sizes. *)
Definition param_ok (P : blake2s_param) : Prop :=
  length (leaf_length P) = 4%nat /\ length (node_offset P) = 6%nat
  /\ length (salt P) = 8%nat /\ length (personal P) = 8%nat.

(** A value that fits an [uint32_t], an [uint8_t]. *)
Definition word32 (z : Z) : Prop := 0 <= z < 2 ^ 32.
Definition byte8 (z : Z) : Prop := 0 <= z < 2 ^ 8.

(** The words of a state fit their [uint32_t] arrays. *)
Definition words_ok (st : blake2s_state) : Prop :=
  length (h st) = 8%nat /\ Forall word32 (h st)
  /\ Forall word32 (t st) /\ Forall word32 (f st).

(** The number of 64-byte blocks of a message of [n] bytes; the empty
    message has one (empty) block. *)
Definition block_count (n : Z) : Z := Z.max 1 ((n + 63) / 64).

(** The parameter block [blake2s_init] ([keylen] 0) and [blake2s_init_key]
    build on their stack. *)
Definition sequential_param (host : byte_order) (outlen keylen : Z)
  : blake2s_param :=
  mk_param outlen keylen 1 1 (store32 host 0) (store48 0) 0 0
           (repeat 0 8) (repeat 0 8).

(** The key block [blake2s_init_key] feeds to [blake2s_update]: the key,
    zero-padded to 64 bytes. *)
Definition key_block (k : list Z) (keylen : Z) : list Z :=
  firstn (Z.to_nat keylen) k ++ repeat 0 (64 - Z.to_nat keylen).

(** The first step of [blake2s_final] on a well-formed state: a full block
    in excess of 64 buffered bytes is compressed and removed. *)
Definition final_flushed (host : byte_order) (st : blake2s_state)
  : blake2s_state :=
  if buflen st >? 64 then
    set_buf
      (set_buflen
         (blake2s_compress host (blake2s_increment_counter st 64) (buf st))
         (buflen st - 64))
      (firstn (Z.to_nat (buflen st - 64)) (skipn 64 (buf st))
       ++ skipn (Z.to_nat (buflen st - 64)) (buf st))
  else st.

(** The buffer of [blake2s_final] once the remainder is zero-padded. *)
Definition final_padded (st1 : blake2s_state) : list Z :=
  firstn (Z.to_nat (buflen st1)) (buf st1)
  ++ repeat 0 (128 - Z.to_nat (buflen st1)).

(** ** The hash as a plain iteration over blocks *)

(** The last block of a message: the counter takes its bytes, the last-block
    flag is set, and the block is compressed zero-padded to 64 bytes. *)
Definition compress_last (host : byte_order) (st : blake2s_state)
           (msg : list Z) : blake2s_state :=
  let st := blake2s_increment_counter st (Z.of_nat (length msg)) in
  let st := blake2s_set_lastblock st in
  blake2s_compress host st (msg ++ repeat 0 (64 - length msg)).

(** The message taken 64 bytes at a time, without any buffer: as long as
    more than 64 bytes are left, the counter is advanced by 64 and the next
    64 bytes are compressed; what is left at the end is the last block. *)
Fixpoint hash_blocks (host : byte_order) (fuel : nat) (st : blake2s_state)
         (msg : list Z) : blake2s_state :=
  match fuel with
  | O => compress_last host st msg
  | S fuel' =>
    if Z.of_nat (length msg) >? 64 then
      hash_blocks host fuel'
                  (blake2s_compress host (blake2s_increment_counter st 64)
                                    (firstn 64 msg))
                  (skipn 64 msg)
    else compress_last host st msg
  end.

(** Two states with the same chaining value, counter and flags. *)
Definition same_words (a b : blake2s_state) : Prop :=
  h a = h b /\ t a = t b /\ f a = f b /\ last_node a = last_node b.

(** * Properties *)

(** ** Integers and memory areas *)

Lemma size_t_small (z : Z) : 0 <= z < 2 ^ 32 -> size_t z = z.
Proof. intros Hz. unfold size_t. now apply Z.mod_small. Qed.

Lemma wrap32_small (z : Z) : 0 <= z < 2 ^ 32 -> wrap32 z = z.
Proof. intros Hz. unfold wrap32. now apply Z.mod_small. Qed.

Lemma wrap32_range (z : Z) : 0 <= wrap32 z < 2 ^ 32.
Proof. unfold wrap32. apply Z.mod_pos_bound. lia. Qed.

Lemma memcpy_length (dst src : list Z) (off n : nat) :
  (off + n <= length dst)%nat -> (n <= length src)%nat ->
  length (memcpy dst off src n) = length dst.
Proof.
  intros Hd Hs. unfold memcpy.
  rewrite !length_app, !length_firstn, length_skipn. lia.
Qed.

Lemma memcpy_firstn (dst src : list Z) (off n : nat) :
  memcpy dst off (firstn n src) n = memcpy dst off src n.
Proof. unfold memcpy. now rewrite firstn_firstn, Nat.min_id. Qed.

Lemma memcpy_all (dst src : list Z) (off : nat) :
  memcpy dst off src (length src)
  = firstn off dst ++ src ++ skipn (off + length src) dst.
Proof. unfold memcpy. now rewrite firstn_all. Qed.

Lemma upd_length (i : nat) (x : Z) (a : list Z) : length (upd i x a) = length a.
Proof.
  revert i; induction a as [|y a IH]; intros [|i]; simpl; auto.
Qed.

Lemma loaded_bytes_front (block : list Z) :
  (64 <= length block)%nat -> loaded_bytes block = firstn 64 block.
Proof.
  intros Hlen.
  rewrite <- (firstn_skipn 64 block) at 1.
  assert (H64 : length (firstn 64 block) = 64%nat)
    by (rewrite length_firstn; lia).
  generalize dependent (skipn 64 block). intros rest.
  destruct (firstn 64 block) as [|b0 l]; [discriminate|].
  do 63 (destruct l as [|? l]; [discriminate|]).
  destruct l; [reflexivity | discriminate].
Qed.

(** ** What the state operations leave alone *)

Section Frame.

Variable host : byte_order.

Lemma compress_frame (st : blake2s_state) (block : list Z) :
  let st' := blake2s_compress host st block in
  t st' = t st /\ f st' = f st /\ buf st' = buf st
  /\ buflen st' = buflen st /\ last_node st' = last_node st
  /\ calls st' = calls st ++ [mk_call (loaded_bytes block) (buf st) (buflen st)].
Proof. unfold blake2s_compress. cbv zeta. repeat split. Qed.

Lemma compress_h_length (st : blake2s_state) (block : list Z) :
  length (h (blake2s_compress host st block)) = 8%nat.
Proof. unfold blake2s_compress. cbv zeta. reflexivity. Qed.

(** The chaining value only depends on the 64 bytes loaded. *)
Lemma compress_h_front (st : blake2s_state) (block : list Z) :
  h (blake2s_compress host st block)
  = h (blake2s_compress host st (firstn 64 block)).
Proof.
  unfold blake2s_compress. cbv zeta.
  assert (Hm : map (fun i : nat => load32 host (skipn (i * 4) block)) (seq 0 16)
               = map (fun i : nat => load32 host (skipn (i * 4) (firstn 64 block)))
                     (seq 0 16)).
  { apply map_ext_in. intros i Hi. apply in_seq in Hi.
    unfold load32. f_equal.
    rewrite skipn_firstn_comm, firstn_firstn.
    f_equal. lia. }
  rewrite <- Hm. reflexivity.
Qed.

Lemma increment_counter_frame (st : blake2s_state) (inc : Z) :
  let st' := blake2s_increment_counter st inc in
  h st' = h st /\ f st' = f st /\ buf st' = buf st
  /\ buflen st' = buflen st /\ last_node st' = last_node st
  /\ calls st' = calls st.
Proof. unfold blake2s_increment_counter. cbv zeta. repeat split. Qed.

End Frame.

(** ** One iteration of the update loop *)

Section UpdateLoop.

Variable host : byte_order.

Arguments blake2s_compress : simpl never.
Arguments blake2s_increment_counter : simpl never.

Lemma fill_buffer_length (st : blake2s_state) (inp : list Z) :
  state_ok st -> 128 - buflen st <= Z.of_nat (length inp) ->
  length (fill_buffer st inp) = 128%nat.
Proof.
  intros [Hb Hl] Hin. unfold fill_buffer.
  rewrite length_app, !length_firstn. lia.
Qed.

Lemma update_block_eq (st : blake2s_state) (inp : list Z) :
  state_ok st -> 128 - buflen st <= Z.of_nat (length inp) ->
  let full := fill_buffer st inp in
  let st2 := blake2s_increment_counter (set_buflen (set_buf st full) 128) 64 in
  let st3 := blake2s_compress host st2 full in
  update_block host st inp (buflen st) (128 - buflen st)
  = set_buflen (set_buf st3 (skipn 64 full ++ skipn 64 full)) 64.
Proof.
  intros Hok Hin.
  pose proof (fill_buffer_length st inp Hok Hin) as Hfull.
  destruct Hok as [Hb Hl].
  assert (Hcpy : memcpy (buf st) (Z.to_nat (buflen st)) inp
                        (Z.to_nat (128 - buflen st)) = fill_buffer st inp).
  { unfold memcpy, fill_buffer.
    rewrite (skipn_all2 (buf st)) by lia. now rewrite app_nil_r. }
  cbv zeta. unfold update_block.
  cbn [buf buflen set_buf set_buflen].
  rewrite Hcpy.
  replace (size_t (buflen st + (128 - buflen st))) with 128
    by (rewrite size_t_small; lia).
  change BLAKE2S_BLOCKBYTES with 64.
  set (full := fill_buffer st inp) in *.
  set (st2 := blake2s_increment_counter (set_buflen (set_buf st full) 128) 64).
  change (buf st2) with full.
  set (st3 := blake2s_compress host st2 full).
  change (buf st3) with full. change (buflen st3) with 128.
  replace (size_t (128 - 64)) with 64 by reflexivity.
  f_equal. f_equal.
  unfold memcpy. cbn [firstn Nat.add app].
  rewrite firstn_all2 by (rewrite length_skipn; lia).
  reflexivity.
Qed.

Lemma update_tail_eq (st : blake2s_state) (inp : list Z) :
  state_ok st -> buflen st + Z.of_nat (length inp) <= 128 ->
  update_tail st inp (buflen st) (Z.of_nat (length inp))
  = set_buflen
      (set_buf st (firstn (Z.to_nat (buflen st)) (buf st) ++ inp
                   ++ skipn (Z.to_nat (buflen st) + length inp) (buf st)))
      (buflen st + Z.of_nat (length inp)).
Proof.
  intros [Hb Hl] Hin. unfold update_tail.
  cbn [buf buflen set_buf set_buflen].
  rewrite Nat2Z.id, memcpy_all.
  rewrite size_t_small by lia. reflexivity.
Qed.

Lemma update_block_ok (st : blake2s_state) (inp : list Z) :
  state_ok st -> 128 - buflen st <= Z.of_nat (length inp) ->
  let st' := update_block host st inp (buflen st) (128 - buflen st) in
  state_ok st' /\ buflen st' = 64.
Proof.
  intros Hok Hin. cbv zeta. rewrite update_block_eq by assumption.
  pose proof (fill_buffer_length st inp Hok Hin) as Hfull.
  unfold state_ok. cbn [buf buflen set_buf set_buflen].
  rewrite length_app, length_skipn. lia.
Qed.

Lemma update_tail_ok (st : blake2s_state) (inp : list Z) :
  state_ok st -> buflen st + Z.of_nat (length inp) <= 128 ->
  state_ok (update_tail st inp (buflen st) (Z.of_nat (length inp))).
Proof.
  intros Hok Hin. rewrite update_tail_eq by assumption.
  destruct Hok as [Hb Hl].
  unfold state_ok. cbn [buf buflen set_buf set_buflen].
  rewrite !length_app, length_firstn, length_skipn. lia.
Qed.

Lemma update_loop_S (fuel : nat) (st : blake2s_state) (inp : list Z) :
  update_loop host (S fuel) st inp
  = if Z.of_nat (length inp) >? 0 then
      if Z.of_nat (length inp) >? size_t (2 * BLAKE2S_BLOCKBYTES - buflen st)
      then update_loop host fuel
             (update_block host st inp (buflen st)
                (size_t (2 * BLAKE2S_BLOCKBYTES - buflen st)))
             (skipn (Z.to_nat (size_t (2 * BLAKE2S_BLOCKBYTES - buflen st))) inp)
      else update_loop host fuel
             (update_tail st inp (buflen st) (Z.of_nat (length inp)))
             (skipn (Z.to_nat (Z.of_nat (length inp))) inp)
    else st.
Proof. reflexivity. Qed.

Lemma update_loop_nil (fuel : nat) (st : blake2s_state) :
  update_loop host fuel st [] = st.
Proof. destruct fuel; reflexivity. Qed.

Lemma fill_eq (st : blake2s_state) :
  state_ok st -> size_t (2 * BLAKE2S_BLOCKBYTES - buflen st) = 128 - buflen st.
Proof.
  intros [Hb _]. change (2 * BLAKE2S_BLOCKBYTES) with 128.
  apply size_t_small. lia.
Qed.

(** One pass through the [if] branch brings the loop closer to its end. *)
Lemma iterations_decrease (st : blake2s_state) (inp : list Z) :
  state_ok st -> buflen st + Z.of_nat (length inp) > 128 ->
  (iterations (update_block host st inp (buflen st) (128 - buflen st))
              (skipn (Z.to_nat (128 - buflen st)) inp)
   < iterations st inp)%nat.
Proof.
  intros Hok Hgt.
  destruct (update_block_ok st inp Hok) as [_ Hlen']; [lia|].
  destruct Hok as [Hb _].
  unfold iterations. rewrite Hlen'. cbn [Z.eqb Pos.eqb].
  rewrite length_skipn.
  destruct (buflen st =? 128) eqn:E; [lia|].
  apply Z.eqb_neq in E. lia.
Qed.

(** The loop never runs out of iterations: any two sufficient amounts of
    fuel give the same state. *)
Lemma update_loop_fuel (n : nat) :
  forall (m : nat) (st : blake2s_state) (inp : list Z),
    state_ok st ->
    (iterations st inp < n)%nat -> (iterations st inp < m)%nat ->
    update_loop host n st inp = update_loop host m st inp.
Proof.
  induction n as [|n IH]; intros m st inp Hok Hn Hm; [lia|].
  destruct m as [|m]; [lia|].
  rewrite !update_loop_S.
  destruct (Z.of_nat (length inp) >? 0) eqn:Hpos; [|reflexivity].
  rewrite (fill_eq st Hok).
  destruct (Z.of_nat (length inp) >? 128 - buflen st) eqn:Hfill.
  - apply Z.gtb_lt in Hfill.
    destruct (update_block_ok st inp Hok) as [Hok' _]; [lia|].
    pose proof (iterations_decrease st inp Hok ltac:(lia)) as Hit.
    apply IH; [assumption | lia | lia].
  - rewrite Nat2Z.id, skipn_all, !update_loop_nil. reflexivity.
Qed.

Lemma blake2s_update_nil (st : blake2s_state) : blake2s_update host st [] = st.
Proof. reflexivity. Qed.

(** The input fits into the buffer: it is appended, and that is all. *)
Lemma blake2s_update_fits (st : blake2s_state) (inp : list Z) :
  state_ok st -> inp <> [] -> buflen st + Z.of_nat (length inp) <= 128 ->
  blake2s_update host st inp
  = update_tail st inp (buflen st) (Z.of_nat (length inp)).
Proof.
  intros Hok Hne Hin. unfold blake2s_update.
  rewrite update_loop_S.
  destruct (Z.of_nat (length inp) >? 0) eqn:Hpos.
  - rewrite (fill_eq st Hok).
    destruct (Z.of_nat (length inp) >? 128 - buflen st) eqn:Hfill.
    + apply Z.gtb_lt in Hfill. lia.
    + rewrite Nat2Z.id, skipn_all, update_loop_nil. reflexivity.
  - rewrite Z.gtb_ltb in Hpos. apply Z.ltb_ge in Hpos.
    destruct inp; [contradiction | cbn [length] in Hpos; lia].
Qed.

(** The input does not fit: one block is compressed and the loop goes on
    with the rest of the input. *)
Lemma blake2s_update_exceeds (st : blake2s_state) (inp : list Z) :
  state_ok st -> buflen st + Z.of_nat (length inp) > 128 ->
  blake2s_update host st inp
  = blake2s_update host
      (update_block host st inp (buflen st) (128 - buflen st))
      (skipn (Z.to_nat (128 - buflen st)) inp).
Proof.
  intros Hok Hin. unfold blake2s_update at 1.
  rewrite update_loop_S.
  pose proof Hok as [Hb _].
  destruct (Z.of_nat (length inp) >? 0) eqn:Hpos;
    [|rewrite Z.gtb_ltb in Hpos; apply Z.ltb_ge in Hpos; lia].
  rewrite (fill_eq st Hok).
  destruct (Z.of_nat (length inp) >? 128 - buflen st) eqn:Hfill;
    [|rewrite Z.gtb_ltb in Hfill; apply Z.ltb_ge in Hfill; lia].
  destruct (update_block_ok st inp Hok) as [Hok' Hlen']; [lia|].
  unfold blake2s_update.
  apply update_loop_fuel; [assumption | |];
    unfold iterations; rewrite Hlen'; cbn [Z.eqb Pos.eqb];
    rewrite length_skipn; lia.
Qed.

(** Induction along the iterations of the loop. *)
Lemma update_ind (P : blake2s_state -> list Z -> Prop) :
  (forall st inp,
      state_ok st -> buflen st + Z.of_nat (length inp) <= 128 -> P st inp) ->
  (forall st inp,
      state_ok st -> buflen st + Z.of_nat (length inp) > 128 ->
      P (update_block host st inp (buflen st) (128 - buflen st))
        (skipn (Z.to_nat (128 - buflen st)) inp) ->
      P st inp) ->
  forall st inp, state_ok st -> P st inp.
Proof.
  intros Hfit Hexc st inp.
  remember (iterations st inp) as n eqn:Hn.
  revert st inp Hn.
  induction n as [n IH] using lt_wf_ind. intros st inp Hn Hok.
  destruct (Z_le_gt_dec (buflen st + Z.of_nat (length inp)) 128) as [Hle|Hgt].
  - now apply Hfit.
  - apply Hexc; try assumption.
    destruct (update_block_ok st inp Hok) as [Hok' _];
      [destruct Hok; lia|].
    eapply IH; [| reflexivity | assumption].
    subst n. now apply iterations_decrease.
Qed.

Lemma blake2s_update_ok (st : blake2s_state) (inp : list Z) :
  state_ok st -> state_ok (blake2s_update host st inp).
Proof.
  revert st inp. apply update_ind; intros st inp Hok Hin.
  - destruct inp as [|b inp]; [now rewrite blake2s_update_nil|].
    rewrite blake2s_update_fits by (assumption || discriminate).
    now apply update_tail_ok.
  - intros IH. now rewrite blake2s_update_exceeds.
Qed.

(** What an update that fits does to each field. *)
Lemma blake2s_update_fits_fields (st : blake2s_state) (inp : list Z) :
  state_ok st -> buflen st + Z.of_nat (length inp) <= 128 ->
  let st' := blake2s_update host st inp in
  h st' = h st /\ t st' = t st /\ f st' = f st
  /\ last_node st' = last_node st /\ calls st' = calls st
  /\ buflen st' = buflen st + Z.of_nat (length inp)
  /\ buf st' = firstn (Z.to_nat (buflen st)) (buf st) ++ inp
               ++ skipn (Z.to_nat (buflen st) + length inp) (buf st).
Proof.
  intros Hok Hin. cbv zeta. destruct inp as [|b inp].
  - rewrite blake2s_update_nil. cbn [length app].
    rewrite Nat.add_0_r, firstn_skipn, Z.add_0_r. repeat split.
  - rewrite blake2s_update_fits by (assumption || discriminate).
    rewrite update_tail_eq by assumption. repeat split.
Qed.

(** *** Splitting the input of an update *)

Lemma fill_buffer_app_l (st : blake2s_state) (a b : list Z) :
  state_ok st -> 128 - buflen st <= Z.of_nat (length a) ->
  fill_buffer st (a ++ b) = fill_buffer st a.
Proof.
  intros [Hb _] Hin. unfold fill_buffer. f_equal.
  rewrite firstn_app.
  replace (Z.to_nat (128 - buflen st) - length a)%nat with 0%nat by lia.
  cbn [firstn]. now rewrite app_nil_r.
Qed.

Lemma update_block_app_l (st : blake2s_state) (a b : list Z) :
  state_ok st -> 128 - buflen st <= Z.of_nat (length a) ->
  update_block host st (a ++ b) (buflen st) (128 - buflen st)
  = update_block host st a (buflen st) (128 - buflen st).
Proof.
  intros Hok Hin.
  rewrite !update_block_eq by (rewrite ?length_app; (assumption || lia)).
  now rewrite fill_buffer_app_l.
Qed.

Lemma tail_then_tail (st : blake2s_state) (a b : list Z) :
  state_ok st -> buflen st + Z.of_nat (length a) + Z.of_nat (length b) <= 128 ->
  let st_a := update_tail st a (buflen st) (Z.of_nat (length a)) in
  update_tail st_a b (buflen st_a) (Z.of_nat (length b))
  = update_tail st (a ++ b) (buflen st) (Z.of_nat (length (a ++ b))).
Proof.
  intros Hok Hin. cbv zeta.
  pose proof (update_tail_ok st a Hok) as Hok_a.
  rewrite (update_tail_eq _ b) by
    (try apply Hok_a; rewrite ?update_tail_eq by (assumption || lia);
     cbn [buflen set_buflen set_buf]; lia).
  rewrite (update_tail_eq st (a ++ b)) by (rewrite ?length_app; (assumption || lia)).
  rewrite (update_tail_eq st a) by (assumption || lia).
  destruct Hok as [Hb Hl].
  cbn [buf buflen set_buf set_buflen].
  rewrite length_app, Nat2Z.inj_add, Z.add_assoc.
  set (l := Z.to_nat (buflen st)).
  assert (Hl' : (l + length a + length b <= length (buf st))%nat) by lia.
  replace (Z.to_nat (buflen st + Z.of_nat (length a))) with (l + length a)%nat by lia.
  assert (HF : length (firstn l (buf st)) = l) by (rewrite length_firstn; lia).
  assert (H1 : firstn (l + length a)
                 (firstn l (buf st) ++ a ++ skipn (l + length a) (buf st))
               = firstn l (buf st) ++ a).
  { rewrite app_assoc, firstn_app, length_app, HF.
    rewrite firstn_all2 by (rewrite length_app; lia).
    replace (l + length a - (l + length a))%nat with 0%nat by lia.
    cbn [firstn]. now rewrite app_nil_r. }
  assert (H2 : skipn (l + length a + length b)
                 (firstn l (buf st) ++ a ++ skipn (l + length a) (buf st))
               = skipn (l + (length a + length b)) (buf st)).
  { rewrite app_assoc, skipn_app, length_app, HF.
    rewrite skipn_all2 by (rewrite length_app; lia).
    replace (l + length a + length b - (l + length a))%nat with (length b) by lia.
    rewrite skipn_skipn. cbn [app]. f_equal. lia. }
  rewrite H1, H2, <- !app_assoc. reflexivity.
Qed.

Lemma tail_then_block (st : blake2s_state) (a b : list Z) :
  state_ok st -> buflen st + Z.of_nat (length a) <= 128 ->
  buflen st + Z.of_nat (length a) + Z.of_nat (length b) > 128 ->
  let st_a := update_tail st a (buflen st) (Z.of_nat (length a)) in
  update_block host st_a b (buflen st_a) (128 - buflen st_a)
  = update_block host st (a ++ b) (buflen st) (128 - buflen st)
  /\ skipn (Z.to_nat (128 - buflen st_a)) b
     = skipn (Z.to_nat (128 - buflen st)) (a ++ b).
Proof.
  intros Hok Ha Hab. cbv zeta.
  pose proof (update_tail_ok st a Hok Ha) as Hok_a.
  assert (Hlen_a : buflen (update_tail st a (buflen st) (Z.of_nat (length a)))
                   = buflen st + Z.of_nat (length a))
    by (rewrite update_tail_eq by assumption; reflexivity).
  rewrite !update_block_eq
    by (rewrite ?length_app, ?Hlen_a; (assumption || lia)).
  rewrite Hlen_a.
  assert (Hfull : fill_buffer (update_tail st a (buflen st) (Z.of_nat (length a))) b
                  = fill_buffer st (a ++ b)).
  { unfold fill_buffer. rewrite Hlen_a.
    rewrite update_tail_eq by assumption.
    destruct Hok as [Hb Hl].
    cbn [buf buflen set_buf set_buflen].
    set (l := Z.to_nat (buflen st)).
    replace (Z.to_nat (buflen st + Z.of_nat (length a))) with (l + length a)%nat by lia.
    assert (HF : length (firstn l (buf st)) = l) by (rewrite length_firstn; lia).
    rewrite app_assoc, firstn_app, length_app, HF.
    rewrite firstn_all2 by (rewrite length_app; lia).
    replace (l + length a - (l + length a))%nat with 0%nat by lia.
    cbn [firstn]. rewrite app_nil_r, <- app_assoc. f_equal.
    rewrite (firstn_app _ a b).
    rewrite (firstn_all2 a) by lia. f_equal. f_equal. lia. }
  rewrite Hfull. split; [reflexivity|].
  destruct Hok as [Hb Hl].
  rewrite skipn_app, (skipn_all2 a) by lia.
  cbn [app]. f_equal. lia.
Qed.

(** Two updates in a row are one update on the concatenation. *)
Lemma blake2s_update_app (st : blake2s_state) (a b : list Z) :
  state_ok st ->
  blake2s_update host (blake2s_update host st a) b
  = blake2s_update host st (a ++ b).
Proof.
  intros Hok. revert st a Hok b.
  apply (update_ind (fun st a =>
           forall b, blake2s_update host (blake2s_update host st a) b
                     = blake2s_update host st (a ++ b))).
  - intros st a Hok Hle b.
    destruct a as [|x a]; [now rewrite blake2s_update_nil|].
    rewrite (blake2s_update_fits st (x :: a)) by (assumption || discriminate).
    pose proof (update_tail_ok st (x :: a) Hok Hle) as Hok_a.
    assert (Hlen_a : buflen (update_tail st (x :: a) (buflen st)
                               (Z.of_nat (length (x :: a))))
                     = buflen st + Z.of_nat (length (x :: a)))
      by (rewrite update_tail_eq by assumption; reflexivity).
    destruct b as [|y b].
    + rewrite app_nil_r, blake2s_update_nil.
      now rewrite blake2s_update_fits by (assumption || discriminate).
    + destruct (Z_le_gt_dec (buflen st + Z.of_nat (length (x :: a))
                             + Z.of_nat (length (y :: b))) 128) as [Hle'|Hgt'].
      * rewrite blake2s_update_fits
          by (try assumption; try discriminate; rewrite Hlen_a; lia).
        rewrite blake2s_update_fits
          by (try assumption; try discriminate; rewrite length_app; lia).
        now apply tail_then_tail.
      * rewrite blake2s_update_exceeds by (try assumption; rewrite Hlen_a; lia).
        rewrite (blake2s_update_exceeds st)
          by (try assumption; rewrite length_app; lia).
        destruct (tail_then_block st (x :: a) (y :: b) Hok Hle Hgt') as [E1 E2].
        now rewrite E1, E2.
  - intros st a Hok Hgt IH b.
    rewrite (blake2s_update_exceeds st a) by assumption.
    rewrite (blake2s_update_exceeds st (a ++ b))
      by (try assumption; rewrite length_app; lia).
    pose proof Hok as [Hb Hl].
    rewrite update_block_app_l by (assumption || lia).
    rewrite skipn_app.
    replace (Z.to_nat (128 - buflen st) - length a)%nat with 0%nat by lia.
    cbn [skipn]. apply IH.
Qed.

(** No update touches the finalization flags or [last_node]. *)
Lemma blake2s_update_flags (st : blake2s_state) (inp : list Z) :
  state_ok st ->
  f (blake2s_update host st inp) = f st
  /\ last_node (blake2s_update host st inp) = last_node st.
Proof.
  revert st inp. apply update_ind.
  - intros st inp Hok Hle.
    destruct (blake2s_update_fits_fields st inp Hok Hle)
      as (_ & _ & Ef & En & _). now split.
  - intros st inp Hok Hgt [Ef En].
    rewrite blake2s_update_exceeds by assumption.
    rewrite Ef, En.
    rewrite update_block_eq by (assumption || lia). split; reflexivity.
Qed.

Lemma update_all_ok (st : blake2s_state) (chunks : list (list Z)) :
  state_ok st -> state_ok (update_all host st chunks).
Proof.
  revert st. induction chunks as [|c chunks IH]; intros st Hok; [assumption|].
  cbn [update_all fold_left]. apply IH. now apply blake2s_update_ok.
Qed.

(** A sequence of updates is one update on the concatenation of the
    chunks. *)
Lemma update_all_concat (st : blake2s_state) (chunks : list (list Z)) :
  state_ok st ->
  update_all host st chunks = blake2s_update host st (concat chunks).
Proof.
  revert st. induction chunks as [|c chunks IH]; intros st Hok.
  - reflexivity.
  - cbn [update_all fold_left concat].
    rewrite <- blake2s_update_app by assumption.
    apply IH. now apply blake2s_update_ok.
Qed.

End UpdateLoop.

(** ** Initialization *)

Section Init.

Variable host : byte_order.

Lemma init_param_fields (P : blake2s_param) :
  let st := blake2s_init_param host P in
  t st = [0; 0] /\ f st = [0; 0] /\ buf st = repeat 0 128 /\ buflen st = 0
  /\ last_node st = 0 /\ calls st = [].
Proof. cbv zeta. repeat split. Qed.

Lemma init_param_ok (P : blake2s_param) : state_ok (blake2s_init_param host P).
Proof. split; [cbn; lia | reflexivity]. Qed.

Lemma blake2s_init_ok (outlen : Z) (st : blake2s_state) :
  blake2s_init host outlen = Ok st -> state_ok st.
Proof.
  unfold blake2s_init.
  destruct ((outlen =? 0) || (outlen >? BLAKE2S_OUTBYTES)); [discriminate|].
  intros [= <-]. apply init_param_ok.
Qed.

Lemma blake2s_init_key_ok (outlen : Z) (key : option (list Z)) (keylen : Z)
      (st : blake2s_state) :
  blake2s_init_key host outlen key keylen = Ok st -> state_ok st.
Proof.
  unfold blake2s_init_key.
  destruct ((outlen =? 0) || (outlen >? BLAKE2S_OUTBYTES)); [discriminate|].
  destruct key as [k|]; [|discriminate].
  destruct ((keylen =? 0) || (keylen >? BLAKE2S_KEYBYTES)); [discriminate|].
  intros [= <-]. apply blake2s_update_ok, init_param_ok.
Qed.

Lemma blake2s_init_succeeds (outlen : Z) :
  1 <= outlen <= 32 -> exists st, blake2s_init host outlen = Ok st.
Proof.
  intros Ho. unfold blake2s_init.
  replace (outlen =? 0) with false by (symmetry; apply Z.eqb_neq; lia).
  replace (outlen >? BLAKE2S_OUTBYTES) with false
    by (rewrite Z.gtb_ltb; symmetry; apply Z.ltb_ge; unfold BLAKE2S_OUTBYTES; lia).
  cbn [orb]. eauto.
Qed.

Lemma blake2s_init_key_succeeds (outlen keylen : Z) (k : list Z) :
  1 <= outlen <= 32 -> 1 <= keylen <= 32 ->
  exists st, blake2s_init_key host outlen (Some k) keylen = Ok st.
Proof.
  intros Ho Hk. unfold blake2s_init_key.
  replace (outlen =? 0) with false by (symmetry; apply Z.eqb_neq; lia).
  replace (outlen >? BLAKE2S_OUTBYTES) with false
    by (rewrite Z.gtb_ltb; symmetry; apply Z.ltb_ge; unfold BLAKE2S_OUTBYTES; lia).
  replace (keylen =? 0) with false by (symmetry; apply Z.eqb_neq; lia).
  replace (keylen >? BLAKE2S_KEYBYTES) with false
    by (rewrite Z.gtb_ltb; symmetry; apply Z.ltb_ge; unfold BLAKE2S_KEYBYTES; lia).
  cbn [orb]. eauto.
Qed.

Lemma key_block_length (k : list Z) (n : nat) :
  (n <= 64)%nat ->
  (length (memcpy (repeat 0%Z 64) 0 k n) <= 64)%nat
  /\ ((n <= length k)%nat -> length (memcpy (repeat 0 64) 0 k n) = 64%nat).
Proof.
  intros Hn. unfold memcpy. cbn [firstn Nat.add app].
  rewrite length_app, length_firstn, length_skipn, repeat_length. lia.
Qed.

Lemma blake2s_init_key_inv (outlen : Z) (key : option (list Z)) (keylen : Z)
      (st : blake2s_state) :
  blake2s_init_key host outlen key keylen = Ok st ->
  exists k,
    key = Some k /\ outlen <> 0 /\ outlen <= 32 /\ keylen <> 0 /\ keylen <= 32
    /\ st = blake2s_update host
              (blake2s_init_param host
                 (mk_param outlen keylen 1 1 (store32 host 0) (store48 0) 0 0
                           (repeat 0 8) (repeat 0 8)))
              (memcpy (repeat 0 64) 0 k (Z.to_nat keylen)).
Proof.
  unfold blake2s_init_key, BLAKE2S_OUTBYTES, BLAKE2S_KEYBYTES.
  rewrite !Z.gtb_ltb.
  destruct (outlen =? 0) eqn:E1; [discriminate|].
  destruct (32 <? outlen) eqn:E2; [discriminate|].
  destruct key as [k|]; [|discriminate].
  destruct (keylen =? 0) eqn:E3; [discriminate|].
  destruct (32 <? keylen) eqn:E4; [discriminate|].
  cbn [orb]. intros [= <-].
  apply Z.eqb_neq in E1, E3. apply Z.ltb_ge in E2, E4.
  exists k. repeat split; assumption.
Qed.

(** The key block is only buffered by [blake2s_init_key]. *)
Lemma blake2s_init_key_fields (outlen : Z) (key : option (list Z)) (keylen : Z)
      (st : blake2s_state) :
  blake2s_init_key host outlen key keylen = Ok st ->
  exists k,
    key = Some k
    /\ t st = [0; 0] /\ f st = [0; 0] /\ last_node st = 0 /\ calls st = []
    /\ buflen st = Z.of_nat (length (memcpy (repeat 0 64) 0 k (Z.to_nat keylen)))
    /\ buf st = memcpy (repeat 0 64) 0 k (Z.to_nat keylen)
                 ++ skipn (length (memcpy (repeat 0 64) 0 k (Z.to_nat keylen)))
                          (repeat 0 128).
Proof.
  intros Hst.
  destruct (blake2s_init_key_inv _ _ _ _ Hst) as (k & -> & Ho1 & Ho2 & Hk1 & Hk2 & ->).
  exists k. split; [reflexivity|].
  set (P := mk_param _ _ _ _ _ _ _ _ _ _).
  set (block := memcpy _ _ _ _).
  assert (Hlen : (length block <= 64)%nat) by (apply key_block_length; lia).
  destruct (blake2s_update_fits_fields host (blake2s_init_param host P) block)
    as (_ & Ht & Hf & Hn & Hc & Hl & Hb).
  { apply init_param_ok. }
  { change (buflen (blake2s_init_param host P)) with 0. lia. }
  rewrite Ht, Hf, Hn, Hc, Hl, Hb. repeat split.
Qed.

End Init.

(** ** Incremental and one-shot hashing *)

(** C2.  For every message split into chunks (empty chunks and any split
    points included), every output length from 1 to 32 and every key of 1 to
    32 bytes or no key, on every host: [blake2s_init] (or [blake2s_init_key]),
    [blake2s_update] on each chunk in order, then [blake2s_final], succeeds
    and leaves in [out] exactly what the one-shot [blake2s] leaves there
    when applied to the concatenation of the chunks. *)
Theorem incremental_equals_one_shot
        (host : byte_order) (out : list Z) (chunks : list (list Z))
        (key : option (list Z)) (outlen keylen : Z) :
  1 <= outlen <= 32 ->
  match key with None => True | Some _ => 1 <= keylen <= 32 end ->
  exists digest,
    init_update_final host out chunks key outlen keylen = Ok digest
    /\ blake2s host (Some out) (Some (concat chunks)) key outlen keylen
       = Ok digest.
Proof.
  intros Ho Hk. unfold init_update_final, blake2s.
  destruct key as [k|].
  - destruct (blake2s_init_key_succeeds host outlen keylen k Ho Hk) as [st Hst].
    replace (keylen >? 0) with true
      by (rewrite Z.gtb_ltb; symmetry; apply Z.ltb_lt; lia).
    rewrite Hst.
    rewrite update_all_concat by (eapply blake2s_init_key_ok; eassumption).
    eexists; split; reflexivity.
  - destruct (blake2s_init_succeeds host outlen Ho) as [st Hst].
    change (0 >? 0) with false. cbv iota. rewrite Hst.
    rewrite update_all_concat by (eapply blake2s_init_ok; eassumption).
    eexists; split; reflexivity.
Qed.

Lemma incremental_equals_one_shot_witness :
  1 <= 32 <= 32 /\ 1 <= 3 <= 32
  /\ exists digest,
      init_update_final LittleEndian (repeat 0 32)
                        [[97]; []; [98; 99]] (Some [1; 2; 3]) 32 3 = Ok digest
      /\ blake2s LittleEndian (Some (repeat 0 32))
                 (Some (concat [[97]; []; [98; 99]])) (Some [1; 2; 3]) 32 3
         = Ok digest.
Proof.
  assert (Ho : 1 <= 32 <= 32) by lia.
  assert (Hk : 1 <= 3 <= 32) by lia.
  split; [exact Ho | split; [exact Hk |]].
  exact (incremental_equals_one_shot LittleEndian (repeat 0 32)
           [[97]; []; [98; 99]] (Some [1; 2; 3]) 32 3 Ho Hk).
Defined.

(** ** Parameter checks of the keyed initialization *)

(** C4, as the code has it.  [blake2s_init_key] returns InvalidParameter
    exactly when [outlen] is 0 or greater than 32, or the key pointer is
    absent, or [keylen] is 0 or greater than 32; in every other case it
    returns a well-formed state.  A key of length 0 is rejected here: it is
    the one-shot [blake2s] that treats it as unkeyed, by calling
    [blake2s_init] instead. *)
Theorem init_key_invalid_parameter
        (host : byte_order) (outlen : Z) (key : option (list Z)) (keylen : Z) :
  (blake2s_init_key host outlen key keylen = InvalidParameter
   <-> outlen = 0 \/ outlen > 32 \/ key = None \/ keylen = 0 \/ keylen > 32)
  /\ match blake2s_init_key host outlen key keylen with
     | Ok st => state_ok st /\ t st = [0; 0] /\ f st = [0; 0]
     | InvalidParameter => True
     end.
Proof.
  split.
  - unfold blake2s_init_key, BLAKE2S_OUTBYTES, BLAKE2S_KEYBYTES.
    rewrite !Z.gtb_ltb.
    destruct (outlen =? 0) eqn:E1; [apply Z.eqb_eq in E1; intuition lia|].
    apply Z.eqb_neq in E1.
    destruct (32 <? outlen) eqn:E2; [apply Z.ltb_lt in E2; intuition lia|].
    apply Z.ltb_ge in E2. cbn [orb].
    destruct key as [k|]; [|intuition].
    destruct (keylen =? 0) eqn:E3; [apply Z.eqb_eq in E3; intuition lia|].
    apply Z.eqb_neq in E3.
    destruct (32 <? keylen) eqn:E4; [apply Z.ltb_lt in E4; intuition lia|].
    apply Z.ltb_ge in E4. cbn [orb].
    split; [discriminate|].
    intros [H|[H|[H|[H|H]]]]; (discriminate || lia).
  - destruct (blake2s_init_key host outlen key keylen) as [st|] eqn:E; [|exact I].
    split; [eapply blake2s_init_key_ok; eassumption|].
    destruct (blake2s_init_key_fields _ _ _ _ _ E) as (k & _ & Ht & Hf & _).
    now split.
Qed.

(** A present key of length 0 with a valid output length is rejected,
    although none of: [outlen] out of range, [keylen] above 32, key absent
    while [keylen > 0], holds. *)
Lemma init_key_zero_keylen_rejected :
  blake2s_init_key LittleEndian 32 (Some []) 0 = InvalidParameter
  /\ ~ (32 = 0 \/ 32 > 32 \/ 0 > 32 \/ (Some [] = @None (list Z) /\ 0 > 0)).
Proof.
  split; [reflexivity|].
  intros [H|[H|[H|[H _]]]]; (discriminate || lia).
Qed.

(** ** The key block *)

Lemma skipn_repeat (x : Z) (n m : nat) :
  skipn n (repeat x m) = repeat x (m - n).
Proof.
  revert n; induction m as [|m IH]; intros [|n]; cbn; auto.
Qed.

(** C10.  After every successful [blake2s_init_key] (the key pointing to at
    least [keylen] bytes), no compression has occurred: the counter is zero
    and the zero-padded key block is only buffered, [buflen] being 64.  The
    first [keylen] bytes of [buf] are the key bytes, followed by zeros up to
    byte 64: the key stays in the state, while the stack copy of the key
    block is all zeros after [secure_zero_memory]. *)
Theorem init_key_buffers_key
        (host : byte_order) (outlen : Z) (key : option (list Z)) (keylen : Z)
        (st : blake2s_state) :
  blake2s_init_key host outlen key keylen = Ok st ->
  match key with Some k => keylen <= Z.of_nat (length k) | None => True end ->
  exists k,
    key = Some k
    /\ calls st = [] /\ t st = [0; 0] /\ counter st = 0 /\ buflen st = 64
    /\ firstn (Z.to_nat keylen) (buf st) = firstn (Z.to_nat keylen) k
    /\ firstn 64 (buf st)
       = firstn (Z.to_nat keylen) k ++ repeat 0 (64 - Z.to_nat keylen)
    /\ init_key_block_burnt k keylen = repeat 0 64.
Proof.
  intros Hst Hkey.
  destruct (blake2s_init_key_inv _ _ _ _ _ Hst) as (k & Ek & _ & _ & _ & Hk2 & _).
  destruct (blake2s_init_key_fields _ _ _ _ _ Hst)
    as (k' & Ek' & Ht & _ & _ & Hc & Hl & Hb).
  subst key. injection Ek' as <-. exists k.
  set (n := Z.to_nat keylen) in *.
  assert (Hn : (n <= 64)%nat) by lia.
  destruct (key_block_length k n Hn) as [_ Hlen].
  specialize (Hlen ltac:(lia)).
  assert (Hblock : memcpy (repeat 0 64) 0 k n = firstn n k ++ repeat 0 (64 - n)).
  { unfold memcpy. cbn [firstn Nat.add app]. now rewrite skipn_repeat. }
  assert (Hfn : length (firstn n k) = n) by (rewrite length_firstn; lia).
  rewrite Hlen in Hl, Hb. rewrite Hblock in Hb.
  repeat split; try assumption.
  - unfold counter. rewrite Ht. reflexivity.
  - rewrite Hb, <- app_assoc, firstn_app, Hfn, Nat.sub_diag.
    rewrite firstn_all2 by lia. cbn [firstn]. now rewrite app_nil_r.
  - rewrite Hb, firstn_app.
    rewrite firstn_all2 by (rewrite length_app, Hfn, repeat_length; lia).
    rewrite length_app, Hfn, repeat_length.
    replace (64 - (n + (64 - n)))%nat with 0%nat by lia.
    cbn [firstn]. now rewrite app_nil_r.
  - unfold init_key_block_burnt, secure_zero_memory, memset.
    change (Z.to_nat BLAKE2S_BLOCKBYTES) with 64%nat. fold n.
    cbn [firstn Nat.add app].
    rewrite skipn_all2 by lia. now rewrite app_nil_r.
Qed.

Lemma init_key_buffers_key_witness :
  exists st,
    blake2s_init_key LittleEndian 32 (Some [1; 2; 3]) 3 = Ok st
    /\ 3 <= Z.of_nat (length [1; 2; 3])
    /\ exists k,
        Some [1; 2; 3] = Some k
        /\ calls st = [] /\ t st = [0; 0] /\ counter st = 0 /\ buflen st = 64
        /\ firstn (Z.to_nat 3) (buf st) = firstn (Z.to_nat 3) k
        /\ firstn 64 (buf st)
           = firstn (Z.to_nat 3) k ++ repeat 0 (64 - Z.to_nat 3)
        /\ init_key_block_burnt k 3 = repeat 0 64.
Proof.
  eexists. split; [reflexivity|].
  assert (Hk : 3 <= Z.of_nat (length [1; 2; 3])) by (cbn; lia).
  split; [exact Hk|].
  exact (init_key_buffers_key LittleEndian 32 (Some [1; 2; 3]) 3 _ eq_refl Hk).
Defined.

(** ** The counter *)

Lemma increment_counter_value (st : blake2s_state) (inc : Z) :
  counter_ok st -> 0 <= inc < 2 ^ 32 ->
  let st' := blake2s_increment_counter st inc in
  idx (t st') 0 = wrap32 (idx (t st) 0 + inc)
  /\ idx (t st') 1
     = wrap32 (idx (t st) 1 + (if idx (t st') 0 <? inc then 1 else 0))
  /\ counter st' = (counter st + inc) mod 2 ^ 64.
Proof.
  intros (Hlen & H0 & H1) Hinc. cbv zeta.
  unfold counter, blake2s_increment_counter. cbv zeta.
  destruct st as [hh tt ff bb bl ln cs]. cbn [t set_t] in *.
  destruct tt as [|t0 [|t1 [|? ?]]]; try discriminate.
  cbn [upd idx nth] in *.
  split; [reflexivity | split; [reflexivity|]].
  unfold wrap32.
  destruct (Z_lt_ge_dec (t0 + inc) (2 ^ 32)) as [Hlo|Hhi].
  - rewrite (Z.mod_small (t0 + inc)) by lia.
    replace (t0 + inc <? inc) with false by (symmetry; apply Z.ltb_ge; lia).
    rewrite Z.add_0_r, (Z.mod_small t1) by lia.
    rewrite Z.mod_small by lia. lia.
  - assert (E : (t0 + inc) mod 2 ^ 32 = t0 + inc - 2 ^ 32).
    { symmetry. apply Z.mod_unique with (q := 1); lia. }
    rewrite E.
    replace (t0 + inc - 2 ^ 32 <? inc) with true by (symmetry; apply Z.ltb_lt; lia).
    destruct (Z_lt_ge_dec (t1 + 1) (2 ^ 32)) as [Hlo1|Hhi1].
    + rewrite (Z.mod_small (t1 + 1)) by lia.
      rewrite Z.mod_small by lia. lia.
    + replace (t1 + 1) with (2 ^ 32) by lia. rewrite Z.mod_same by lia.
      apply Z.mod_unique with (q := 1); lia.
Qed.

(** C9.  [blake2s_increment_counter] adds [inc] to the 64-bit counter held
    in [t[0]], [t[1]] with wrap-around: the low word is the 32-bit sum, the
    carry into [t[1]] is the comparison [t[0] < inc] after that addition,
    and the counter afterwards is (the counter before + inc) modulo 2^64;
    an overflow wraps, the counter does not stay at its maximum. *)
Theorem increment_counter_wraps (st : blake2s_state) (inc : Z) :
  counter_ok st -> 0 <= inc < 2 ^ 32 ->
  let st' := blake2s_increment_counter st inc in
  idx (t st') 0 = wrap32 (idx (t st) 0 + inc)
  /\ idx (t st') 1
     = wrap32 (idx (t st) 1 + (if idx (t st') 0 <? inc then 1 else 0))
  /\ counter st' = (counter st + inc) mod 2 ^ 64
  /\ (2 ^ 64 <= counter st + inc -> counter st' = counter st + inc - 2 ^ 64).
Proof.
  intros Hok Hinc.
  destruct (increment_counter_value st inc Hok Hinc) as (E0 & E1 & Ec).
  cbv zeta. repeat split; try assumption.
  intros Hover. rewrite Ec.
  destruct Hok as (_ & H0 & H1). unfold counter in *.
  symmetry. apply Z.mod_unique with (q := 1); lia.
Qed.

Lemma increment_counter_wraps_witness :
  let st := mk_state blake2s_IV [2 ^ 32 - 1; 2 ^ 32 - 1] [0; 0]
                     (repeat 0 128) 128 0 [] in
  counter_ok st /\ 0 <= 64 < 2 ^ 32
  /\ counter (blake2s_increment_counter st 64) = 63.
Proof.
  cbv zeta.
  assert (Hok : counter_ok (mk_state blake2s_IV [2 ^ 32 - 1; 2 ^ 32 - 1] [0; 0]
                                     (repeat 0 128) 128 0 []))
    by (unfold counter_ok; cbn; lia).
  assert (Hinc : 0 <= 64 < 2 ^ 32) by lia.
  split; [exact Hok | split; [exact Hinc |]].
  destruct (increment_counter_wraps _ 64 Hok Hinc) as (_ & _ & Ec & _).
  rewrite Ec. reflexivity.
Defined.

(** ** The buffering of [blake2s_update] *)

Section Buffering.

Variable host : byte_order.

Lemma compress_h_ext (st st' : blake2s_state) (block : list Z) :
  h st = h st' -> t st = t st' -> f st = f st' ->
  h (blake2s_compress host st block) = h (blake2s_compress host st' block).
Proof.
  intros Eh Et Ef. unfold blake2s_compress. cbv zeta.
  cbn [h t f set_h log_call]. now rewrite Eh, Et, Ef.
Qed.

Lemma increment_counter_ok (st : blake2s_state) (inc : Z) :
  counter_ok st -> counter_ok (blake2s_increment_counter st inc).
Proof.
  intros (Hlen & H0 & H1). unfold counter_ok, blake2s_increment_counter.
  cbv zeta. destruct st as [hh tt ff bb bl ln cs]. cbn [t set_t] in *.
  destruct tt as [|t0 [|t1 [|? ?]]]; try discriminate.
  cbn [upd idx nth length].
  split; [reflexivity|]. split; apply wrap32_range.
Qed.

(** The fields of the state after one pass through the [if] branch. *)
Lemma update_block_fields (st : blake2s_state) (inp : list Z) :
  state_ok st -> 128 - buflen st <= Z.of_nat (length inp) ->
  let full := fill_buffer st inp in
  let st1 := update_block host st inp (buflen st) (128 - buflen st) in
  t st1 = t (blake2s_increment_counter st 64)
  /\ h st1 = h (blake2s_compress host (blake2s_increment_counter st 64)
                                 (firstn 64 full))
  /\ f st1 = f st /\ last_node st1 = last_node st
  /\ calls st1 = calls st ++ [mk_call (firstn 64 full) full 128]
  /\ buf st1 = skipn 64 full ++ skipn 64 full
  /\ buflen st1 = 64.
Proof.
  intros Hok Hin. cbv zeta.
  rewrite update_block_eq by assumption.
  pose proof (fill_buffer_length st inp Hok Hin) as Hfull.
  cbn [h t f buf buflen last_node calls set_buf set_buflen].
  repeat split.
  - rewrite compress_h_front. apply compress_h_ext; reflexivity.
  - destruct (compress_frame host
                (blake2s_increment_counter
                   (set_buflen (set_buf st (fill_buffer st inp)) 128) 64)
                (fill_buffer st inp)) as (_ & _ & _ & _ & _ & Ec).
    rewrite Ec. rewrite loaded_bytes_front by lia. reflexivity.
Qed.

End Buffering.

(** C6.  On a well-formed state, [blake2s_update] with no input leaves the
    whole state unchanged.  When the input fits with the buffered bytes
    into the 128-byte buffer, it is only appended: no compression, no
    counter change.  When input plus buffered bytes exceed 128, the buffer
    is filled to 128 bytes, exactly 64 is added to the 64-bit counter, the
    first 64 bytes of the buffer are compressed, the second half of the
    buffer is moved to the front leaving [buflen] = 64, and the update
    goes on in the same way with the rest of the input. *)
Theorem update_buffering
        (host : byte_order) (st : blake2s_state) (inp : list Z) :
  state_ok st -> counter_ok st ->
  blake2s_update host st [] = st
  /\ if buflen st + Z.of_nat (length inp) <=? 128 then
       let st' := blake2s_update host st inp in
       h st' = h st /\ t st' = t st /\ f st' = f st /\ calls st' = calls st
       /\ buflen st' = buflen st + Z.of_nat (length inp)
       /\ firstn (Z.to_nat (buflen st')) (buf st')
          = firstn (Z.to_nat (buflen st)) (buf st) ++ inp
     else
       let fill := 128 - buflen st in
       let full := fill_buffer st inp in
       let st1 := update_block host st inp (buflen st) fill in
       blake2s_update host st inp
       = blake2s_update host st1 (skipn (Z.to_nat fill) inp)
       /\ length full = 128%nat
       /\ counter st1 = (counter st + 64) mod 2 ^ 64
       /\ h st1 = h (blake2s_compress host (blake2s_increment_counter st 64)
                                      (firstn 64 full))
       /\ f st1 = f st
       /\ calls st1 = calls st ++ [mk_call (firstn 64 full) full 128]
       /\ buf st1 = skipn 64 full ++ skipn 64 full
       /\ buflen st1 = 64
       /\ state_ok st1 /\ counter_ok st1.
Proof.
  intros Hok Hcnt. split; [apply blake2s_update_nil|].
  destruct (buflen st + Z.of_nat (length inp) <=? 128) eqn:Hcmp.
  - apply Z.leb_le in Hcmp. cbv zeta.
    destruct (blake2s_update_fits_fields host st inp Hok Hcmp)
      as (Eh & Et & Ef & _ & Ec & El & Eb).
    repeat split; try assumption.
    rewrite El, Eb. destruct Hok as [Hb Hl].
    rewrite app_assoc, firstn_app.
    rewrite firstn_all2 by (rewrite length_app, length_firstn; lia).
    rewrite length_app, length_firstn.
    replace (Z.to_nat (buflen st + Z.of_nat (length inp))
             - (Nat.min (Z.to_nat (buflen st)) (length (buf st)) + length inp))%nat
      with 0%nat by lia.
    cbn [firstn]. now rewrite app_nil_r.
  - apply Z.leb_gt in Hcmp. cbv zeta.
    assert (Hin : 128 - buflen st <= Z.of_nat (length inp)) by lia.
    destruct (update_block_fields host st inp Hok Hin)
      as (Et & Eh & Ef & _ & Ec & Eb & El).
    destruct (update_block_ok host st inp Hok Hin) as [Hok1 _].
    split; [apply blake2s_update_exceeds; (assumption || lia)|].
    split; [now apply fill_buffer_length|].
    assert (H64 : 0 <= 64 < 2 ^ 32) by lia.
    destruct (increment_counter_value st 64 Hcnt H64) as (_ & _ & Ecnt).
    assert (Hcnt1 : counter_ok
                      (update_block host st inp (buflen st) (128 - buflen st))).
    { unfold counter_ok. rewrite Et. apply (increment_counter_ok st 64 Hcnt). }
    assert (Ecnt1 : counter (update_block host st inp (buflen st) (128 - buflen st))
                    = (counter st + 64) mod 2 ^ 64).
    { unfold counter in *. rewrite Et. exact Ecnt. }
    tauto.
Qed.

Lemma update_buffering_witness :
  let st := mk_state blake2s_IV [0; 0] [0; 0] (repeat 0 128) 0 0 [] in
  let inp := repeat 7 129 in
  state_ok st /\ counter_ok st
  /\ buflen (update_block LittleEndian st inp (buflen st) (128 - buflen st)) = 64
  /\ counter (update_block LittleEndian st inp (buflen st) (128 - buflen st)) = 64.
Proof.
  cbv zeta.
  set (st := mk_state blake2s_IV [0; 0] [0; 0] (repeat 0 128) 0 0 []).
  set (inp := repeat 7 129).
  assert (Hok : state_ok st) by (split; [cbn; lia | reflexivity]).
  assert (Hcnt : counter_ok st) by (unfold counter_ok; cbn; lia).
  split; [exact Hok | split; [exact Hcnt |]].
  pose proof (update_buffering LittleEndian st inp Hok Hcnt) as [_ H].
  assert (E : (buflen st + Z.of_nat (length inp) <=? 128) = false) by reflexivity.
  rewrite E in H. cbv zeta in H.
  destruct H as (_ & _ & Ec & _ & _ & _ & _ & El & _).
  split; [exact El | exact Ec].
Defined.

(** ** The calls of the compression function *)

Section Calls.

Variable host : byte_order.

Lemma front_block_full (full : list Z) (n : Z) :
  length full = 128%nat -> front_block (mk_call (firstn 64 full) full n).
Proof.
  intros Hlen. unfold front_block. cbn [call_block call_buf].
  split; [rewrite length_firstn; lia | reflexivity].
Qed.

Lemma compress_call_front (st : blake2s_state) :
  length (buf st) = 128%nat ->
  exists c,
    calls (blake2s_compress host st (buf st)) = calls st ++ [c]
    /\ front_block c /\ call_buflen c = buflen st.
Proof.
  intros Hlen.
  destruct (compress_frame host st (buf st)) as (_ & _ & _ & _ & _ & Ec).
  eexists. split; [exact Ec|].
  rewrite loaded_bytes_front by lia.
  split; [now apply front_block_full | reflexivity].
Qed.

(** Every call of the compression function made by [blake2s_update] finds
    the buffer full and consumes its first block. *)
Lemma blake2s_update_calls (st : blake2s_state) (inp : list Z) :
  state_ok st ->
  exists new,
    calls (blake2s_update host st inp) = calls st ++ new
    /\ Forall (fun c => front_block c /\ call_buflen c = 128) new.
Proof.
  revert st inp. apply (update_ind host).
  - intros st inp Hok Hle.
    destruct (blake2s_update_fits_fields host st inp Hok Hle)
      as (_ & _ & _ & _ & Ec & _).
    exists []. rewrite Ec, app_nil_r. split; [reflexivity | constructor].
  - intros st inp Hok Hgt (new & Enew & Hnew).
    rewrite blake2s_update_exceeds by assumption.
    assert (Hin : 128 - buflen st <= Z.of_nat (length inp)) by lia.
    destruct (update_block_fields host st inp Hok Hin)
      as (_ & _ & _ & _ & Ec & _ & _).
    pose proof (fill_buffer_length st inp Hok Hin) as Hfull.
    eexists (_ :: new). rewrite Enew, Ec, <- app_assoc.
    split; [reflexivity|].
    constructor; [|assumption].
    split; [now apply front_block_full | reflexivity].
Qed.

Lemma update_all_calls (st : blake2s_state) (chunks : list (list Z)) :
  state_ok st ->
  exists new,
    calls (update_all host st chunks) = calls st ++ new
    /\ Forall (fun c => front_block c /\ call_buflen c = 128) new.
Proof.
  revert st. induction chunks as [|c chunks IH]; intros st Hok.
  - exists []. rewrite app_nil_r. split; [reflexivity | constructor].
  - cbn [update_all fold_left].
    destruct (blake2s_update_calls st c Hok) as (new1 & E1 & H1).
    destruct (IH (blake2s_update host st c)) as (new2 & E2 & H2).
    { now apply blake2s_update_ok. }
    exists (new1 ++ new2). unfold update_all in E2.
    rewrite E2, E1, <- app_assoc. split; [reflexivity|].
    apply Forall_app. now split.
Qed.

End Calls.

(** ** Finalization, step by step *)

Section Final.

Variable host : byte_order.

Lemma set_lastblock_frame (st : blake2s_state) :
  let st' := blake2s_set_lastblock st in
  h st' = h st /\ t st' = t st /\ buf st' = buf st
  /\ buflen st' = buflen st /\ last_node st' = last_node st
  /\ calls st' = calls st.
Proof.
  unfold blake2s_set_lastblock. cbv zeta.
  destruct (last_node st =? 0); repeat split.
Qed.

(** In sequential mode [last_node] is zero: only [f[0]] is set. *)
Lemma set_lastblock_flags (st : blake2s_state) :
  last_node st = 0 -> f st = [0; 0] ->
  f (blake2s_set_lastblock st) = [2 ^ 32 - 1; 0].
Proof.
  intros Hn Hf. unfold blake2s_set_lastblock. cbv zeta.
  rewrite Hn. cbn [Z.eqb f set_f]. now rewrite Hf.
Qed.

Lemma memset_length (dst : list Z) (off n : nat) (c : Z) :
  (off + n <= length dst)%nat -> length (memset dst off c n) = length dst.
Proof.
  intros Hd. unfold memset.
  rewrite !length_app, length_firstn, repeat_length, length_skipn. lia.
Qed.

(** [blake2s_final] on a well-formed state: [st1] is the state once a full
    block in excess has been compressed and removed, [padded] the buffer
    with the remainder zero-padded, [st3] the state after the last
    compression. *)
Lemma blake2s_final_eq (st : blake2s_state) (out : list Z) (outlen : Z) :
  state_ok st ->
  let st1 :=
    if buflen st >? 64 then
      set_buf
        (set_buflen
           (blake2s_compress host (blake2s_increment_counter st 64) (buf st))
           (buflen st - 64))
        (firstn (Z.to_nat (buflen st - 64)) (skipn 64 (buf st))
         ++ skipn (Z.to_nat (buflen st - 64)) (buf st))
    else st in
  let padded := firstn (Z.to_nat (buflen st1)) (buf st1)
                ++ repeat 0 (128 - Z.to_nat (buflen st1)) in
  let st2 := set_buf (blake2s_set_lastblock
                        (blake2s_increment_counter st1 (buflen st1))) padded in
  let st3 := blake2s_compress host st2 padded in
  (0 <= buflen st1 <= 64 /\ length (buf st1) = 128%nat)
  /\ blake2s_final host st out outlen
     = (st3, memcpy out 0
               (flat_map (fun i => store32 host (idx (h st3) i)) (seq 0 8))
               (Z.to_nat outlen)).
Proof.
  intros [Hb Hl]. cbv zeta.
  set (st1 := if buflen st >? 64 then _ else st).
  assert (H1 : 0 <= buflen st1 <= 64 /\ length (buf st1) = 128%nat).
  { subst st1. destruct (buflen st >? 64) eqn:E.
    - rewrite Z.gtb_ltb in E. apply Z.ltb_lt in E.
      cbn [buf buflen set_buf set_buflen].
      rewrite length_app, length_firstn, !length_skipn. lia.
    - rewrite Z.gtb_ltb in E. apply Z.ltb_ge in E. lia. }
  split; [exact H1|]. destruct H1 as [Hb1 Hl1].
  unfold blake2s_final. cbv zeta. change BLAKE2S_BLOCKBYTES with 64.
  match goal with
  | |- context [if buflen st >? 64 then ?flushed else st] =>
      assert (E1 : (if buflen st >? 64 then flushed else st) = st1)
  end.
  { subst st1. destruct (buflen st >? 64) eqn:E; [|reflexivity].
    rewrite Z.gtb_ltb in E. apply Z.ltb_lt in E.
    change (buf (blake2s_increment_counter st 64)) with (buf st).
    change (buflen (blake2s_compress host (blake2s_increment_counter st 64) (buf st)))
      with (buflen st).
    rewrite size_t_small by lia.
    cbn [buf buflen set_buf set_buflen].
    change (buf (blake2s_compress host (blake2s_increment_counter st 64) (buf st)))
      with (buf st).
    unfold memcpy. cbn [firstn Nat.add app].
    change (Z.to_nat 64) with 64%nat. reflexivity. }
  rewrite E1. clearbody st1. clear E1.
  rewrite (wrap32_small (buflen st1)) by lia.
  set (X := blake2s_set_lastblock (blake2s_increment_counter st1 (buflen st1))).
  destruct (set_lastblock_frame (blake2s_increment_counter st1 (buflen st1)))
    as (_ & _ & EbX & ElX & _). fold X in EbX, ElX.
  change (buf (blake2s_increment_counter st1 (buflen st1))) with (buf st1) in EbX.
  change (buflen (blake2s_increment_counter st1 (buflen st1)))
    with (buflen st1) in ElX.
  cbn [buf buflen set_buf].
  rewrite EbX, ElX.
  assert (Epad : memset (buf st1) (Z.to_nat (buflen st1)) 0
                        (Z.to_nat (size_t (2 * 64 - buflen st1)))
                 = firstn (Z.to_nat (buflen st1)) (buf st1)
                   ++ repeat 0 (128 - Z.to_nat (buflen st1))).
  { unfold memset. rewrite size_t_small by lia.
    rewrite skipn_all2 by lia. rewrite app_nil_r.
    f_equal. f_equal. lia. }
  rewrite Epad. reflexivity.
Qed.

(** Every call of the compression function made by [blake2s_final] consumes
    the first block of a full-size buffer. *)
Lemma blake2s_final_calls (st : blake2s_state) (out : list Z) (outlen : Z) :
  state_ok st ->
  exists new,
    calls (fst (blake2s_final host st out outlen)) = calls st ++ new
    /\ Forall front_block new.
Proof.
  intros Hok.
  destruct (blake2s_final_eq st out outlen Hok) as [[Hb1 Hl1] E].
  rewrite E. clear E. cbn [fst].
  set (st1 := if buflen st >? 64 then _ else st) in *.
  assert (H1 : exists new1, calls st1 = calls st ++ new1 /\ Forall front_block new1).
  { subst st1. destruct (buflen st >? 64).
    - cbn [calls set_buf set_buflen].
      destruct (compress_call_front host (blake2s_increment_counter st 64))
        as (c & Ec & Hc & _); [apply Hok|].
      change (buf (blake2s_increment_counter st 64)) with (buf st) in Ec.
      change (calls (blake2s_increment_counter st 64)) with (calls st) in Ec.
      exists [c]. split; [exact Ec | now constructor].
    - exists []. rewrite app_nil_r. split; [reflexivity | constructor]. }
  destruct H1 as (new1 & E1 & Hnew1).
  clearbody st1.
  set (padded := firstn (Z.to_nat (buflen st1)) (buf st1)
                 ++ repeat 0 (128 - Z.to_nat (buflen st1))).
  set (st2 := set_buf (blake2s_set_lastblock
                         (blake2s_increment_counter st1 (buflen st1))) padded).
  assert (Hpad : length (buf st2) = 128%nat).
  { cbn [st2 buf set_buf]. unfold padded.
    rewrite length_app, length_firstn, repeat_length. lia. }
  destruct (compress_call_front host st2 Hpad) as (c & Ec & Hc & _).
  change (buf st2) with padded in Ec. rewrite Ec.
  destruct (set_lastblock_frame (blake2s_increment_counter st1 (buflen st1)))
    as (_ & _ & _ & _ & _ & Ecalls).
  cbn [st2 calls set_buf]. rewrite Ecalls.
  change (calls (blake2s_increment_counter st1 (buflen st1))) with (calls st1).
  rewrite E1, <- app_assoc. eexists. split; [reflexivity|].
  apply Forall_app. split; [assumption | now constructor].
Qed.

(** What is copied to [out] is a prefix of the 32 bytes serialized. *)
Lemma blake2s_final_truncates (st : blake2s_state) (out : list Z) (outlen : Z) :
  0 <= outlen <= 32 -> length out = Z.to_nat outlen ->
  snd (blake2s_final host st out outlen)
  = firstn (Z.to_nat outlen) (snd (blake2s_final host st (repeat 0 32) 32)).
Proof.
  intros Ho Hlen. unfold blake2s_final. cbv zeta. cbn [snd].
  match goal with
  | |- memcpy out 0 ?b _ = _ =>
      set (buffer := b);
      assert (Hbuf : length buffer = 32%nat) by
        (subst buffer; destruct host; reflexivity)
  end.
  unfold memcpy. cbn [firstn Nat.add app].
  rewrite (skipn_all2 out) by lia.
  change (Z.to_nat 32) with 32%nat.
  rewrite (firstn_all2 (n := 32) buffer) by lia.
  rewrite (skipn_all2 (n := 32)) by (rewrite repeat_length; lia).
  now rewrite !app_nil_r.
Qed.

End Final.

(** ** The buffer invariant *)

(** C8.  Starting from a well-formed state, after every [blake2s_update] of
    a sequence of updates [0 <= buflen <= 128] holds, and every call of the
    compression function made by these updates and by the [blake2s_final]
    that follows consumes exactly one full 64-byte block, taken from the
    front of [buf]. *)
Theorem buflen_invariant_and_full_blocks
        (host : byte_order) (st : blake2s_state) (chunks : list (list Z))
        (out : list Z) (outlen : Z) :
  state_ok st ->
  (forall n, 0 <= buflen (update_all host st (firstn n chunks)) <= 128)
  /\ exists new,
      calls (fst (blake2s_final host (update_all host st chunks) out outlen))
      = calls st ++ new
      /\ Forall front_block new.
Proof.
  intros Hok. split.
  - intros n. apply (update_all_ok host st (firstn n chunks) Hok).
  - destruct (update_all_calls host st chunks Hok) as (new1 & E1 & H1).
    destruct (blake2s_final_calls host (update_all host st chunks) out outlen)
      as (new2 & E2 & H2).
    { now apply update_all_ok. }
    exists (new1 ++ new2). rewrite E2, E1, <- app_assoc.
    split; [reflexivity|].
    apply Forall_app. split; [|assumption].
    eapply Forall_impl; [|exact H1]. intros c [Hc _]. exact Hc.
Qed.

Lemma buflen_invariant_and_full_blocks_witness :
  let st := mk_state blake2s_IV [0; 0] [0; 0] (repeat 0 128) 0 0 [] in
  state_ok st
  /\ 0 <= buflen (update_all LittleEndian st
                             (firstn 2 [repeat 1 100; repeat 2 100; [3]])) <= 128.
Proof.
  cbv zeta.
  assert (Hok : state_ok (mk_state blake2s_IV [0; 0] [0; 0] (repeat 0 128) 0 0 []))
    by (split; [cbn; lia | reflexivity]).
  split; [exact Hok|].
  exact (proj1 (buflen_invariant_and_full_blocks LittleEndian _
                  [repeat 1 100; repeat 2 100; [3]] (repeat 0 32) 32 Hok) 2%nat).
Defined.

(** ** Digest lengths *)

(** The one-byte hash of the empty string is not the first byte of its
    32-byte hash. *)
Lemma prefix_consistency_fails :
  exists d1 d32,
    blake2s LittleEndian (Some [0]) (Some []) None 1 0 = Ok d1
    /\ blake2s LittleEndian (Some (repeat 0 32)) (Some []) None 32 0 = Ok d32
    /\ d1 <> firstn 1 d32.
Proof.
  eexists. eexists.
  split; [vm_compute; reflexivity|].
  split; [vm_compute; reflexivity|].
  cbn [firstn]. discriminate.
Qed.

(** The one-shot hash copies out a prefix of what [blake2s_untruncated]
    returns. *)
Lemma blake2s_truncates
      (host : byte_order) (out inp : list Z) (key : option (list Z))
      (keylen L : Z) :
  1 <= L <= 32 -> length out = Z.to_nat L ->
  blake2s host (Some out) (Some inp) key L keylen
  = match blake2s_untruncated host inp key L keylen with
    | Ok d => Ok (firstn (Z.to_nat L) d)
    | InvalidParameter => InvalidParameter
    end.
Proof.
  intros HL Hlen. unfold blake2s, blake2s_untruncated. cbv zeta.
  destruct (if (match key with None => 0 | Some _ => keylen end) >? 0
            then blake2s_init_key host L key
                   (match key with None => 0 | Some _ => keylen end)
            else blake2s_init host L) as [st|]; [|reflexivity].
  f_equal. apply blake2s_final_truncates; (assumption || lia).
Qed.

(** C3, as the code has it.  For every input, every key and every digest
    length L from 1 to 32, the one-shot hash with output length L is the
    first L bytes of the 32 bytes that [blake2s_final] serializes for the
    same input and key when the state was initialized with digest length L.
    (L is part of the parameter block, so this is not a prefix of the hash
    with output length 32.) *)
Theorem digest_is_truncated_serialization
        (host : byte_order) (out inp : list Z) (key : option (list Z))
        (keylen L : Z) :
  1 <= L <= 32 -> length out = Z.to_nat L ->
  blake2s host (Some out) (Some inp) key L keylen
  = match blake2s_untruncated host inp key L keylen with
    | Ok d => Ok (firstn (Z.to_nat L) d)
    | InvalidParameter => InvalidParameter
    end.
Proof. exact (blake2s_truncates host out inp key keylen L). Qed.

Lemma digest_is_truncated_serialization_witness :
  1 <= 16 <= 32 /\ length (repeat 0 16) = Z.to_nat 16
  /\ blake2s LittleEndian (Some (repeat 0 16)) (Some [97; 98; 99]) None 16 0
     = match blake2s_untruncated LittleEndian [97; 98; 99] None 16 0 with
       | Ok d => Ok (firstn (Z.to_nat 16) d)
       | InvalidParameter => InvalidParameter
       end.
Proof.
  assert (HL : 1 <= 16 <= 32) by lia.
  assert (Hlen : length (repeat 0 16) = Z.to_nat 16) by reflexivity.
  split; [exact HL | split; [exact Hlen |]].
  exact (digest_is_truncated_serialization LittleEndian (repeat 0 16)
           [97; 98; 99] None 0 16 HL Hlen).
Defined.

(** ** Known answers *)

(** The digest of the empty string is not the 63-digit string. *)
Lemma empty_digest_differs :
  digest_hex (blake2s LittleEndian (Some (repeat 0 32)) (Some []) None 32 0)
  <> Some "69217a3079908094e11121d042354a7c1f55b6482ca1a51e1b250dfd1ed0eee"%string.
Proof. vm_compute. discriminate. Qed.

(** C1, with the digest of the empty string as the code computes it.  On a
    little-endian host the unkeyed one-shot hash with 32 bytes of output
    yields 69217a3079908094e11121d042354a7c1f55b6482ca1a51e1b250dfd1ed0eef9
    for the empty string and
    508c5e8c327c14e2e1a72ba34eeb452f37458b209ed63a294d999b4c86675982 for the
    three bytes of abc. *)
Theorem known_answers (out : list Z) :
  length out = 32%nat ->
  digest_hex (blake2s LittleEndian (Some out) (Some []) None 32 0)
  = Some "69217a3079908094e11121d042354a7c1f55b6482ca1a51e1b250dfd1ed0eef9"%string
  /\ digest_hex (blake2s LittleEndian (Some out) (Some [97; 98; 99]) None 32 0)
     = Some "508c5e8c327c14e2e1a72ba34eeb452f37458b209ed63a294d999b4c86675982"%string.
Proof.
  intros Hlen.
  assert (HL : 1 <= 32 <= 32) by lia.
  rewrite !(blake2s_truncates LittleEndian out _ None 0 32 HL Hlen).
  split; vm_compute; reflexivity.
Qed.

Lemma known_answers_witness :
  length (repeat 0 32) = 32%nat
  /\ digest_hex (blake2s LittleEndian (Some (repeat 0 32)) (Some []) None 32 0)
     = Some "69217a3079908094e11121d042354a7c1f55b6482ca1a51e1b250dfd1ed0eef9"%string.
Proof.
  split; [reflexivity|].
  exact (proj1 (known_answers (repeat 0 32) eq_refl)).
Defined.

(** ** Byte order *)

Lemma load32_little_endian_host (b0 b1 b2 b3 : Z) (rest : list Z) :
  load32 LittleEndian (b0 :: b1 :: b2 :: b3 :: rest)
  = b0 + 2 ^ 8 * b1 + 2 ^ 16 * b2 + 2 ^ 24 * b3.
Proof. reflexivity. Qed.

Lemma load32_big_endian_host_bytes (b0 b1 b2 b3 : Z) (rest : list Z) :
  load32 BigEndian (b0 :: b1 :: b2 :: b3 :: rest)
  = b3 + 2 ^ 8 * b2 + 2 ^ 16 * b1 + 2 ^ 24 * b0.
Proof. reflexivity. Qed.

(** On every host [load32] reads back what [store32] wrote. *)
Lemma load32_store32 (host : byte_order) (w : Z) :
  0 <= w < 2 ^ 32 -> load32 host (store32 host w) = w.
Proof.
  intros Hw. unfold load32, store32, bytes_of_word, word_of_bytes, u8.
  rewrite !Z.shiftr_div_pow2 by lia.
  destruct host; cbn [rev app firstn nth];
    change (2 ^ 8) with 256; change (2 ^ 16) with 65536;
    change (2 ^ 24) with 16777216; change (2 ^ 32) with 4294967296 in Hw;
    Z.div_mod_to_equations; lia.
Qed.

(** C5 on a big-endian host.  [load32] and [store32] access memory through
    a [uint32_t] pointer: where the host is big-endian, the bytes 01 00 00 00
    load as 2^24, not as 1, and the word 1 is stored as 00 00 00 01; only on
    a little-endian host is the first byte the least significant. *)
Theorem load32_store32_host_order :
  load32 BigEndian [1; 0; 0; 0] = 2 ^ 24
  /\ load32 BigEndian [1; 0; 0; 0] <> 1 + 2 ^ 8 * 0 + 2 ^ 16 * 0 + 2 ^ 24 * 0
  /\ store32 BigEndian 1 = [0; 0; 0; 1]
  /\ load32 LittleEndian [1; 0; 0; 0] = 1
  /\ store32 LittleEndian 1 = [1; 0; 0; 0].
Proof. repeat split. vm_compute. discriminate. Qed.

(** C7 on a big-endian host.  [blake2s_final] serializes the chaining words
    with [store32]: where the host is big-endian, the bytes copied to [out]
    are the big-endian bytes of [h[0..8)], which differ from the
    little-endian ones. *)
Theorem final_serializes_in_host_order :
  let st := blake2s_init_param BigEndian
              (mk_param 32 0 1 1 (store32 BigEndian 0) (store48 0) 0 0
                        (repeat 0 8) (repeat 0 8)) in
  let r := blake2s_final BigEndian st (repeat 0 32) 32 in
  blake2s_init BigEndian 32 = Ok st
  /\ snd r = flat_map (bytes_of_word BigEndian) (h (fst r))
  /\ snd r <> flat_map (bytes_of_word LittleEndian) (h (fst r)).
Proof.
  cbv zeta. split; [reflexivity|]. split.
  - vm_compute. reflexivity.
  - vm_compute. discriminate.
Qed.

(** * Further properties of the code *)

(** ** The one-shot hash and its parameters *)

(** X1.  The one-shot [blake2s] returns InvalidParameter exactly when [in]
    is NULL, or [out] is NULL, or [outlen] is 0 or greater than 32, or a key
    is given with [keylen] greater than 32.  In particular a NULL key is
    never an error, whatever [keylen] is. *)
Theorem blake2s_invalid_parameter
        (host : byte_order) (out inp key : option (list Z)) (outlen keylen : Z) :
  blake2s host out inp key outlen keylen = InvalidParameter
  <-> inp = None \/ out = None \/ outlen = 0 \/ outlen > 32
      \/ (key <> None /\ keylen > 32).
Proof.
  unfold blake2s.
  destruct inp as [inb|]; [|intuition].
  destruct out as [outb|]; [|intuition].
  cbv zeta. unfold blake2s_init_key, blake2s_init, BLAKE2S_OUTBYTES,
              BLAKE2S_KEYBYTES.
  rewrite !Z.gtb_ltb.
  destruct key as [k|].
  - destruct (0 <? keylen) eqn:Ek;
      [apply Z.ltb_lt in Ek | apply Z.ltb_ge in Ek];
      (destruct (outlen =? 0) eqn:E1;
       [apply Z.eqb_eq in E1 | apply Z.eqb_neq in E1]);
      (destruct (32 <? outlen) eqn:E2;
       [apply Z.ltb_lt in E2 | apply Z.ltb_ge in E2]);
      cbn [orb]; try (intuition lia).
    + destruct (keylen =? 0) eqn:E3;
        [apply Z.eqb_eq in E3 | apply Z.eqb_neq in E3]; [lia|].
      destruct (32 <? keylen) eqn:E4;
        [apply Z.ltb_lt in E4 | apply Z.ltb_ge in E4]; cbn [orb].
      * split; [intros _|reflexivity].
        right; right; right; right. split; [discriminate | lia].
      * split; [discriminate|].
        intros [H|[H|[H|[H|[_ H]]]]]; (discriminate || lia).
    + split; [discriminate|].
      intros [H|[H|[H|[H|[_ H]]]]]; (discriminate || lia).
  - change (0 <? 0) with false. cbv iota.
    destruct (outlen =? 0) eqn:E1;
      [apply Z.eqb_eq in E1 | apply Z.eqb_neq in E1];
      (destruct (32 <? outlen) eqn:E2;
       [apply Z.ltb_lt in E2 | apply Z.ltb_ge in E2]);
      cbn [orb]; try (intuition lia).
    split; [discriminate|].
    intros [H|[H|[H|[H|[H _]]]]]; (discriminate || lia || congruence).
Qed.

(** X2.  With a NULL key, or with a key of length 0, the one-shot [blake2s]
    is the unkeyed hash: the key argument and [keylen] have no effect. *)
Theorem blake2s_without_key
        (host : byte_order) (out inp key : option (list Z)) (outlen keylen : Z) :
  key = None \/ keylen = 0 ->
  blake2s host out inp key outlen keylen = blake2s host out inp None outlen 0.
Proof.
  intros [-> | ->]; [reflexivity|].
  unfold blake2s. destruct inp, out, key; reflexivity.
Qed.

Lemma blake2s_without_key_witness :
  (@None (list Z) = None \/ 17 = 0)
  /\ blake2s LittleEndian (Some (repeat 0 32)) (Some [97; 98; 99]) None 32 17
     = blake2s LittleEndian (Some (repeat 0 32)) (Some [97; 98; 99]) None 32 0.
Proof.
  assert (H : @None (list Z) = None \/ 17 = 0) by (left; reflexivity).
  split; [exact H|].
  exact (blake2s_without_key LittleEndian (Some (repeat 0 32))
           (Some [97; 98; 99]) None 32 17 H).
Defined.

Lemma key_block_memcpy (k : list Z) (keylen : Z) :
  memcpy (repeat 0 (Z.to_nat BLAKE2S_BLOCKBYTES)) 0 k (Z.to_nat keylen)
  = key_block k keylen.
Proof.
  unfold memcpy, key_block. change (Z.to_nat BLAKE2S_BLOCKBYTES) with 64%nat.
  cbn [firstn Nat.add app]. now rewrite skipn_repeat.
Qed.

Lemma blake2s_init_key_eq (host : byte_order) (outlen keylen : Z) (k : list Z) :
  1 <= outlen <= 32 -> 1 <= keylen <= 32 ->
  blake2s_init_key host outlen (Some k) keylen
  = Ok (blake2s_update host
          (blake2s_init_param host (sequential_param host outlen keylen))
          (key_block k keylen)).
Proof.
  intros Ho Hk. unfold blake2s_init_key.
  replace (outlen =? 0) with false by (symmetry; apply Z.eqb_neq; lia).
  replace (outlen >? BLAKE2S_OUTBYTES) with false
    by (rewrite Z.gtb_ltb; symmetry; apply Z.ltb_ge; unfold BLAKE2S_OUTBYTES; lia).
  replace (keylen =? 0) with false by (symmetry; apply Z.eqb_neq; lia).
  replace (keylen >? BLAKE2S_KEYBYTES) with false
    by (rewrite Z.gtb_ltb; symmetry; apply Z.ltb_ge; unfold BLAKE2S_KEYBYTES; lia).
  cbn [orb]. cbv zeta. now rewrite key_block_memcpy.
Qed.

(** X3.  Keyed hashing is unkeyed processing of a longer message: for a
    key of 1 to 32 bytes, the one-shot [blake2s] finalizes the state that
    one [blake2s_update] reaches, from the state initialized with the
    parameter block carrying [keylen], on the zero-padded key block followed
    by the input. *)
Theorem keyed_hash_prepends_key_block
        (host : byte_order) (out inp k : list Z) (outlen keylen : Z) :
  1 <= outlen <= 32 -> 1 <= keylen <= 32 ->
  blake2s host (Some out) (Some inp) (Some k) outlen keylen
  = Ok (snd (blake2s_final host
               (blake2s_update host
                  (blake2s_init_param host (sequential_param host outlen keylen))
                  (key_block k keylen ++ inp))
               out outlen)).
Proof.
  intros Ho Hk. unfold blake2s.
  replace (keylen >? 0) with true
    by (rewrite Z.gtb_ltb; symmetry; apply Z.ltb_lt; lia).
  rewrite blake2s_init_key_eq by assumption.
  now rewrite blake2s_update_app by apply init_param_ok.
Qed.

Lemma keyed_hash_prepends_key_block_witness :
  1 <= 32 <= 32 /\ 1 <= 3 <= 32
  /\ blake2s LittleEndian (Some (repeat 0 32)) (Some [97; 98; 99])
             (Some [1; 2; 3]) 32 3
     = Ok (snd (blake2s_final LittleEndian
                  (blake2s_update LittleEndian
                     (blake2s_init_param LittleEndian
                        (sequential_param LittleEndian 32 3))
                     (key_block [1; 2; 3] 3 ++ [97; 98; 99]))
                  (repeat 0 32) 32)).
Proof.
  assert (Ho : 1 <= 32 <= 32) by lia.
  assert (Hk : 1 <= 3 <= 32) by lia.
  split; [exact Ho | split; [exact Hk |]].
  exact (keyed_hash_prepends_key_block LittleEndian (repeat 0 32)
           [97; 98; 99] [1; 2; 3] 32 3 Ho Hk).
Defined.

(** X4.  [blake2s_init_key], and with it the one-shot [blake2s], reads the
    first [keylen] bytes of the key only: two keys that agree on them give
    the same result. *)
Theorem key_read_up_to_keylen
        (host : byte_order) (out inp : option (list Z)) (k k' : list Z)
        (outlen keylen : Z) :
  firstn (Z.to_nat keylen) k = firstn (Z.to_nat keylen) k' ->
  blake2s_init_key host outlen (Some k) keylen
  = blake2s_init_key host outlen (Some k') keylen
  /\ blake2s host out inp (Some k) outlen keylen
     = blake2s host out inp (Some k') outlen keylen.
Proof.
  intros Hk.
  assert (E : blake2s_init_key host outlen (Some k) keylen
              = blake2s_init_key host outlen (Some k') keylen).
  { unfold blake2s_init_key. cbv zeta.
    rewrite !key_block_memcpy. unfold key_block. now rewrite Hk. }
  split; [exact E|].
  unfold blake2s. destruct inp, out; try reflexivity. cbv zeta. now rewrite E.
Qed.

Lemma key_read_up_to_keylen_witness :
  firstn (Z.to_nat 2) [1; 2; 3] = firstn (Z.to_nat 2) [1; 2; 4; 5]
  /\ blake2s LittleEndian (Some (repeat 0 32)) (Some []) (Some [1; 2; 3]) 32 2
     = blake2s LittleEndian (Some (repeat 0 32)) (Some []) (Some [1; 2; 4; 5]) 32 2.
Proof.
  assert (H : firstn (Z.to_nat 2) [1; 2; 3] = firstn (Z.to_nat 2) [1; 2; 4; 5])
    by reflexivity.
  split; [exact H|].
  exact (proj2 (key_read_up_to_keylen LittleEndian (Some (repeat 0 32)) (Some [])
                  [1; 2; 3] [1; 2; 4; 5] 32 2 H)).
Defined.

(** ** The output area *)

Lemma Forall_firstn_list (A : Type) (P : A -> Prop) (n : nat) (l : list A) :
  Forall P l -> Forall P (firstn n l).
Proof.
  intros H. revert n. induction H as [|x l Hx Hl IH]; intros [|n]; cbn;
    constructor; auto.
Qed.

Lemma store32_bytes (host : byte_order) (w : Z) :
  length (store32 host w) = 4%nat /\ Forall byte8 (store32 host w).
Proof.
  assert (Hu : forall z, byte8 (u8 z))
    by (intros z; unfold byte8, u8; apply Z.mod_pos_bound; lia).
  unfold store32, bytes_of_word.
  destruct host; cbn [rev app]; split; try reflexivity;
    repeat constructor; apply Hu.
Qed.

Lemma serialized_bytes (host : byte_order) (hs : list Z) :
  Forall byte8 (flat_map (fun i => store32 host (idx hs i)) (seq 0 8)).
Proof.
  apply Forall_forall. intros b Hb.
  apply in_flat_map in Hb. destruct Hb as (i & _ & Hb).
  destruct (store32_bytes host (idx hs i)) as [_ HF].
  rewrite Forall_forall in HF. now apply HF.
Qed.

(** X5.  [blake2s_final] asked for [outlen] bytes, at most 32 and at most
    the size of [out], replaces the first [outlen] bytes of [out] and
    nothing else: the area keeps its size, the bytes behind are untouched,
    and the bytes written are 8-bit values that depend on the state only,
    not on what [out] held. *)
Theorem final_writes_outlen_bytes
        (host : byte_order) (st : blake2s_state) (out : list Z) (outlen : Z) :
  0 <= outlen <= 32 -> outlen <= Z.of_nat (length out) ->
  let out' := snd (blake2s_final host st out outlen) in
  length out' = length out
  /\ skipn (Z.to_nat outlen) out' = skipn (Z.to_nat outlen) out
  /\ firstn (Z.to_nat outlen) out'
     = firstn (Z.to_nat outlen) (snd (blake2s_final host st (repeat 0 32) 32))
  /\ Forall byte8 (firstn (Z.to_nat outlen) out').
Proof.
  intros Ho Hlen. unfold blake2s_final. cbv zeta. cbn [snd].
  match goal with
  | |- context [memcpy out 0 ?b _] =>
      set (buffer := b);
      assert (Hbuf : length buffer = 32%nat) by
        (subst buffer; destruct host; reflexivity);
      assert (Hbytes : Forall byte8 buffer) by (apply serialized_bytes)
  end.
  unfold memcpy. cbn [firstn Nat.add app].
  change (Z.to_nat 32) with 32%nat.
  rewrite (firstn_all2 (n := 32) buffer) by lia.
  rewrite (skipn_all2 (n := 32)) by (rewrite repeat_length; lia).
  rewrite app_nil_r.
  set (n := Z.to_nat outlen).
  assert (Hn : length (firstn n buffer) = n) by (rewrite length_firstn; lia).
  assert (Hfirst : firstn n (firstn n buffer ++ skipn n out) = firstn n buffer).
  { rewrite firstn_app, Hn, Nat.sub_diag. cbn [firstn].
    rewrite app_nil_r. apply firstn_all2. lia. }
  repeat split.
  - rewrite length_app, Hn, length_skipn. lia.
  - rewrite skipn_app, Hn, Nat.sub_diag. cbn [skipn].
    rewrite skipn_all2 by lia. reflexivity.
  - exact Hfirst.
  - rewrite Hfirst. now apply Forall_firstn_list.
Qed.

Lemma final_writes_outlen_bytes_witness :
  let st := mk_state blake2s_IV [0; 0] [0; 0] (repeat 0 128) 0 0 [] in
  0 <= 4 <= 32 /\ 4 <= Z.of_nat (length [9; 9; 9; 9; 9; 9])
  /\ skipn (Z.to_nat 4) (snd (blake2s_final LittleEndian st [9; 9; 9; 9; 9; 9] 4))
     = skipn (Z.to_nat 4) [9; 9; 9; 9; 9; 9].
Proof.
  cbv zeta.
  assert (Ho : 0 <= 4 <= 32) by lia.
  assert (Hl : 4 <= Z.of_nat (length [9; 9; 9; 9; 9; 9])) by (cbn; lia).
  split; [exact Ho | split; [exact Hl |]].
  exact (proj1 (proj2 (final_writes_outlen_bytes LittleEndian _
                         [9; 9; 9; 9; 9; 9] 4 Ho Hl))).
Defined.

(** ** The state after [blake2s_final] *)

Section FinalState.

Variable host : byte_order.

Lemma blake2s_final_state (st : blake2s_state) (out : list Z) (outlen : Z) :
  state_ok st ->
  let st1 := final_flushed host st in
  fst (blake2s_final host st out outlen)
  = blake2s_compress host
      (set_buf (blake2s_set_lastblock
                  (blake2s_increment_counter st1 (buflen st1)))
               (final_padded st1))
      (final_padded st1)
  /\ 0 <= buflen st1 <= 64.
Proof.
  intros Hok. destruct (blake2s_final_eq host st out outlen Hok) as [[Hb _] E].
  cbv zeta. unfold final_flushed, final_padded. rewrite E. now split.
Qed.

Lemma final_flushed_fields (st : blake2s_state) :
  let st1 := final_flushed host st in
  f st1 = f st /\ last_node st1 = last_node st
  /\ t st1 = (if buflen st >? 64 then t (blake2s_increment_counter st 64)
              else t st)
  /\ buflen st1 = (if buflen st >? 64 then buflen st - 64 else buflen st)
  /\ calls st1
     = (if buflen st >? 64
        then calls st ++ [mk_call (loaded_bytes (buf st)) (buf st) (buflen st)]
        else calls st).
Proof.
  cbv zeta. unfold final_flushed.
  destruct (buflen st >? 64); repeat split.
Qed.

Lemma counter_ext (a b : blake2s_state) :
  t a = t b -> counter a = counter b /\ (counter_ok a <-> counter_ok b).
Proof. intros E. unfold counter, counter_ok. rewrite E. tauto. Qed.

Lemma blake2s_update_counter (st : blake2s_state) (inp : list Z) :
  state_ok st -> counter_ok st ->
  counter_ok (blake2s_update host st inp)
  /\ (counter (blake2s_update host st inp) + buflen (blake2s_update host st inp))
       mod 2 ^ 64
     = (counter st + buflen st + Z.of_nat (length inp)) mod 2 ^ 64.
Proof.
  revert st inp. apply (update_ind host (fun st inp => counter_ok st -> _)).
  - intros st inp Hok Hle Hcnt.
    destruct (blake2s_update_fits_fields host st inp Hok Hle)
      as (_ & Et & _ & _ & _ & El & _).
    destruct (counter_ext _ _ Et) as [Ec Eok].
    split; [now apply Eok|]. rewrite Ec, El. f_equal. lia.
  - intros st inp Hok Hgt IH Hcnt.
    rewrite blake2s_update_exceeds by assumption.
    assert (Hin : 128 - buflen st <= Z.of_nat (length inp)) by lia.
    destruct (update_block_fields host st inp Hok Hin)
      as (Et & _ & _ & _ & _ & _ & El).
    destruct (counter_ext _ _ Et) as [Ec Eok].
    assert (H64 : 0 <= 64 < 2 ^ 32) by lia.
    destruct (increment_counter_value st 64 Hcnt H64) as (_ & _ & Ev).
    destruct IH as [Hok' Heq].
    { apply Eok. now apply increment_counter_ok. }
    split; [exact Hok'|].
    rewrite Heq, Ec, Ev, El, length_skipn.
    destruct Hok as [Hb _].
    replace (Z.of_nat (length inp - Z.to_nat (128 - buflen st)))
      with (Z.of_nat (length inp) - (128 - buflen st)) by lia.
    rewrite <- Z.add_assoc, Zplus_mod_idemp_l. f_equal. lia.
Qed.

Lemma update_all_counter (st : blake2s_state) (chunks : list (list Z)) :
  state_ok st -> counter_ok st ->
  counter_ok (update_all host st chunks)
  /\ (counter (update_all host st chunks) + buflen (update_all host st chunks))
       mod 2 ^ 64
     = (counter st + buflen st + Z.of_nat (length (concat chunks))) mod 2 ^ 64.
Proof.
  intros Hok Hcnt. rewrite update_all_concat by assumption.
  now apply blake2s_update_counter.
Qed.

Lemma blake2s_final_counter (st : blake2s_state) (out : list Z) (outlen : Z) :
  state_ok st -> counter_ok st ->
  counter (fst (blake2s_final host st out outlen))
  = (counter st + buflen st) mod 2 ^ 64.
Proof.
  intros Hok Hcnt.
  destruct (blake2s_final_state st out outlen Hok) as [E Hb1]. rewrite E.
  destruct (final_flushed_fields st) as (_ & _ & Et1 & El1 & _).
  set (st1 := final_flushed host st) in *.
  destruct (compress_frame host
              (set_buf (blake2s_set_lastblock
                          (blake2s_increment_counter st1 (buflen st1)))
                       (final_padded st1)) (final_padded st1))
    as (Et & _).
  destruct (set_lastblock_frame (blake2s_increment_counter st1 (buflen st1)))
    as (_ & Et' & _).
  cbn [t set_buf] in Et. rewrite Et' in Et.
  destruct (counter_ext _ _ Et) as [Ec _]. rewrite Ec.
  assert (H64 : 0 <= 64 < 2 ^ 32) by lia.
  destruct (increment_counter_value st 64 Hcnt H64) as (_ & _ & Ev).
  assert (Hcnt1 : counter_ok st1 /\
                  (counter st1 + buflen st1) mod 2 ^ 64
                  = (counter st + buflen st) mod 2 ^ 64).
  { destruct (buflen st >? 64).
    - destruct (counter_ext _ _ Et1) as [Ec1 Eok1].
      split; [apply Eok1; now apply increment_counter_ok|].
      rewrite Ec1, Ev, El1, Zplus_mod_idemp_l. f_equal. lia.
    - destruct (counter_ext _ _ Et1) as [Ec1 Eok1].
      split; [now apply Eok1|]. now rewrite Ec1, El1. }
  destruct Hcnt1 as [Hcnt1 Heq].
  destruct (increment_counter_value st1 (buflen st1) Hcnt1) as (_ & _ & Ev1);
    [lia|].
  now rewrite Ev1.
Qed.

End FinalState.

(** X6.  The counter counts the bytes hashed: starting from a well-formed
    state, after any sequence of updates followed by [blake2s_final], the
    64-bit counter has grown, modulo 2^64, by the number of bytes that were
    buffered plus the number of bytes of all the chunks.  From a freshly
    initialized state it is the length of the message. *)
Theorem counter_counts_bytes
        (host : byte_order) (st : blake2s_state) (chunks : list (list Z))
        (out : list Z) (outlen : Z) :
  state_ok st -> counter_ok st ->
  counter (fst (blake2s_final host (update_all host st chunks) out outlen))
  = (counter st + buflen st + Z.of_nat (length (concat chunks))) mod 2 ^ 64.
Proof.
  intros Hok Hcnt.
  destruct (update_all_counter host st chunks Hok Hcnt) as [Hcnt' Heq].
  rewrite blake2s_final_counter by (try assumption; now apply update_all_ok).
  exact Heq.
Qed.

Lemma counter_counts_bytes_witness :
  let st := blake2s_init_param LittleEndian (sequential_param LittleEndian 32 0) in
  state_ok st /\ counter_ok st
  /\ counter (fst (blake2s_final LittleEndian
                     (update_all LittleEndian st [repeat 1 100; repeat 2 100])
                     (repeat 0 32) 32))
     = 200.
Proof.
  cbv zeta.
  set (st := blake2s_init_param LittleEndian (sequential_param LittleEndian 32 0)).
  assert (Hok : state_ok st) by apply init_param_ok.
  assert (Hcnt : counter_ok st) by (unfold counter_ok; cbn; lia).
  split; [exact Hok | split; [exact Hcnt |]].
  rewrite (counter_counts_bytes LittleEndian st [repeat 1 100; repeat 2 100]
             (repeat 0 32) 32 Hok Hcnt).
  reflexivity.
Defined.

(** ** How often the compression function runs *)

Section Count.

Variable host : byte_order.

Lemma blake2s_final_call_count (st : blake2s_state) (out : list Z) (outlen : Z) :
  state_ok st ->
  Z.of_nat (length (calls (fst (blake2s_final host st out outlen))))
  = Z.of_nat (length (calls st)) + (if buflen st >? 64 then 2 else 1).
Proof.
  intros Hok.
  destruct (blake2s_final_state host st out outlen Hok) as [E _]. rewrite E.
  destruct (final_flushed_fields host st) as (_ & _ & _ & _ & Ec1).
  set (st1 := final_flushed host st) in *.
  destruct (compress_frame host
              (set_buf (blake2s_set_lastblock
                          (blake2s_increment_counter st1 (buflen st1)))
                       (final_padded st1)) (final_padded st1))
    as (_ & _ & _ & _ & _ & Ec).
  destruct (set_lastblock_frame (blake2s_increment_counter st1 (buflen st1)))
    as (_ & _ & _ & _ & _ & Ec').
  cbn [calls set_buf] in Ec. rewrite Ec' in Ec.
  change (calls (blake2s_increment_counter st1 (buflen st1)))
    with (calls st1) in Ec.
  rewrite Ec, Ec1.
  destruct (buflen st >? 64); rewrite ?length_app; cbn [length]; lia.
Qed.

Lemma update_final_call_count (st : blake2s_state) (inp out : list Z)
      (outlen : Z) :
  state_ok st ->
  Z.of_nat (length (calls (fst (blake2s_final host (blake2s_update host st inp)
                                              out outlen))))
  = Z.of_nat (length (calls st))
    + block_count (buflen st + Z.of_nat (length inp)).
Proof.
  revert st inp. apply (update_ind host).
  - intros st inp Hok Hle.
    rewrite blake2s_final_call_count by now apply blake2s_update_ok.
    destruct (blake2s_update_fits_fields host st inp Hok Hle)
      as (_ & _ & _ & _ & Ec & El & _).
    rewrite Ec, El. f_equal. destruct Hok as [Hb _].
    unfold block_count.
    destruct (buflen st + Z.of_nat (length inp) >? 64) eqn:E;
      rewrite Z.gtb_ltb in E;
      [apply Z.ltb_lt in E | apply Z.ltb_ge in E];
      Z.div_mod_to_equations; lia.
  - intros st inp Hok Hgt IH.
    rewrite blake2s_update_exceeds by assumption. rewrite IH.
    assert (Hin : 128 - buflen st <= Z.of_nat (length inp)) by lia.
    destruct (update_block_fields host st inp Hok Hin)
      as (_ & _ & _ & _ & Ec & _ & El).
    rewrite Ec, El, length_app, length_skipn. cbn [length].
    destruct Hok as [Hb _]. unfold block_count.
    Z.div_mod_to_equations; lia.
Qed.

End Count.

(** X7.  Hashing runs the compression function once per 64-byte block:
    starting from a well-formed state, the updates on any chunks followed by
    [blake2s_final] call [blake2s_compress] exactly max(1, ceil(n / 64))
    times, where n is the number of bytes buffered before plus the number of
    bytes of all the chunks.  The split into chunks does not matter, and the
    empty message costs one call. *)
Theorem compression_count
        (host : byte_order) (st : blake2s_state) (chunks : list (list Z))
        (out : list Z) (outlen : Z) :
  state_ok st ->
  Z.of_nat (length (calls (fst (blake2s_final host (update_all host st chunks)
                                              out outlen))))
  = Z.of_nat (length (calls st))
    + block_count (buflen st + Z.of_nat (length (concat chunks))).
Proof.
  intros Hok. rewrite update_all_concat by assumption.
  now apply update_final_call_count.
Qed.

Lemma compression_count_witness :
  let st := blake2s_init_param LittleEndian (sequential_param LittleEndian 32 0) in
  state_ok st
  /\ Z.of_nat (length (calls (fst (blake2s_final LittleEndian
                                     (update_all LittleEndian st
                                        [repeat 1 64; repeat 2 64; [3]])
                                     (repeat 0 32) 32))))
     = 3.
Proof.
  cbv zeta.
  set (st := blake2s_init_param LittleEndian (sequential_param LittleEndian 32 0)).
  assert (Hok : state_ok st) by apply init_param_ok.
  split; [exact Hok|].
  rewrite (compression_count LittleEndian st [repeat 1 64; repeat 2 64; [3]]
             (repeat 0 32) 32 Hok).
  reflexivity.
Defined.

(** ** The finalization flags *)

Section Flags.

Variable host : byte_order.

Lemma update_all_flags (st : blake2s_state) (chunks : list (list Z)) :
  state_ok st ->
  f (update_all host st chunks) = f st
  /\ last_node (update_all host st chunks) = last_node st.
Proof.
  intros Hok. rewrite update_all_concat by assumption.
  now apply blake2s_update_flags.
Qed.

Lemma blake2s_final_flags (st : blake2s_state) (out : list Z) (outlen : Z) :
  state_ok st -> f st = [0; 0] -> last_node st = 0 ->
  f (fst (blake2s_final host st out outlen)) = [2 ^ 32 - 1; 0].
Proof.
  intros Hok Hf Hn.
  destruct (blake2s_final_state host st out outlen Hok) as [E _]. rewrite E.
  destruct (final_flushed_fields host st) as (Ef1 & En1 & _).
  set (st1 := final_flushed host st) in *.
  destruct (compress_frame host
              (set_buf (blake2s_set_lastblock
                          (blake2s_increment_counter st1 (buflen st1)))
                       (final_padded st1)) (final_padded st1))
    as (_ & Ef & _).
  cbn [f set_buf] in Ef. rewrite Ef.
  apply set_lastblock_flags.
  - change (last_node (blake2s_increment_counter st1 (buflen st1)))
      with (last_node st1). congruence.
  - change (f (blake2s_increment_counter st1 (buflen st1))) with (f st1).
    congruence.
Qed.

End Flags.

(** X8.  In a sequential session (flags zero and [last_node] clear, as
    [blake2s_init0] leaves them) both finalization flags stay zero through
    every update, and [blake2s_final] sets [f[0]] to all-ones before the last
    compression while [f[1]] stays zero. *)
Theorem sequential_flags
        (host : byte_order) (st : blake2s_state) (chunks : list (list Z))
        (out : list Z) (outlen : Z) :
  state_ok st -> f st = [0; 0] -> last_node st = 0 ->
  f (update_all host st chunks) = [0; 0]
  /\ last_node (update_all host st chunks) = 0
  /\ f (fst (blake2s_final host (update_all host st chunks) out outlen))
     = [2 ^ 32 - 1; 0].
Proof.
  intros Hok Hf Hn.
  destruct (update_all_flags host st chunks Hok) as [Ef En].
  rewrite Ef, En. repeat split; try assumption.
  apply blake2s_final_flags; [now apply update_all_ok | congruence | congruence].
Qed.

Lemma sequential_flags_witness :
  let st := blake2s_init_param LittleEndian (sequential_param LittleEndian 32 0) in
  state_ok st /\ f st = [0; 0] /\ last_node st = 0
  /\ f (fst (blake2s_final LittleEndian
               (update_all LittleEndian st [repeat 1 200])
               (repeat 0 32) 32))
     = [2 ^ 32 - 1; 0].
Proof.
  cbv zeta.
  set (st := blake2s_init_param LittleEndian (sequential_param LittleEndian 32 0)).
  assert (Hok : state_ok st) by apply init_param_ok.
  assert (Hf : f st = [0; 0]) by reflexivity.
  assert (Hn : last_node st = 0) by reflexivity.
  split; [exact Hok | split; [exact Hf | split; [exact Hn |]]].
  exact (proj2 (proj2 (sequential_flags LittleEndian st [repeat 1 200]
                         (repeat 0 32) 32 Hok Hf Hn))).
Defined.

(** ** Unkeyed initialization *)

(** X9.  [blake2s_init] returns InvalidParameter exactly when [outlen] is 0
    or greater than 32; otherwise it returns a fresh session: counter and
    flags zero, an empty all-zero buffer of 128 bytes, [last_node] clear, and
    no compression done. *)
Theorem blake2s_init_fresh (host : byte_order) (outlen : Z) :
  (blake2s_init host outlen = InvalidParameter <-> outlen = 0 \/ outlen > 32)
  /\ match blake2s_init host outlen with
     | Ok st =>
         t st = [0; 0] /\ f st = [0; 0] /\ buflen st = 0
         /\ buf st = repeat 0 128 /\ last_node st = 0 /\ calls st = []
         /\ length (h st) = 8%nat
     | InvalidParameter => True
     end.
Proof.
  unfold blake2s_init, BLAKE2S_OUTBYTES. rewrite Z.gtb_ltb.
  destruct (outlen =? 0) eqn:E1;
    [apply Z.eqb_eq in E1 | apply Z.eqb_neq in E1];
    (destruct (32 <? outlen) eqn:E2;
     [apply Z.ltb_lt in E2 | apply Z.ltb_ge in E2]);
    cbn [orb]; try (split; [intuition lia | exact I]).
  split.
  - split; [discriminate | lia].
  - repeat split.
Qed.

(** X10.  On a little-endian host the initial chaining value is the IV with
    the first word XORed with the parameter word
    [outlen + 2^8 * keylen + 2^16 * fanout + 2^24 * depth], fanout and depth
    being 1: this holds for the state [blake2s_init] returns (key length 0)
    and for the one [blake2s_init_key] returns, whose chaining value the
    buffering of the key block leaves alone. *)
Theorem initial_chaining_value (outlen keylen : Z) (key : option (list Z)) :
  match blake2s_init LittleEndian outlen with
  | Ok st =>
      h st = [ Z.lxor 0x6A09E667 (outlen + 2 ^ 16 + 2 ^ 24);
               0xBB67AE85; 0x3C6EF372; 0xA54FF53A;
               0x510E527F; 0x9B05688C; 0x1F83D9AB; 0x5BE0CD19 ]
  | InvalidParameter => True
  end
  /\ match blake2s_init_key LittleEndian outlen key keylen with
     | Ok st =>
         h st = [ Z.lxor 0x6A09E667 (outlen + 2 ^ 8 * keylen + 2 ^ 16 + 2 ^ 24);
                  0xBB67AE85; 0x3C6EF372; 0xA54FF53A;
                  0x510E527F; 0x9B05688C; 0x1F83D9AB; 0x5BE0CD19 ]
     | InvalidParameter => True
     end.
Proof.
  assert (Hh : forall kl,
             h (blake2s_init_param LittleEndian
                  (sequential_param LittleEndian outlen kl))
             = [ Z.lxor 0x6A09E667 (outlen + 2 ^ 8 * kl + 2 ^ 16 + 2 ^ 24);
                 0xBB67AE85; 0x3C6EF372; 0xA54FF53A;
                 0x510E527F; 0x9B05688C; 0x1F83D9AB; 0x5BE0CD19 ]).
  { intros kl.
    unfold blake2s_init_param, sequential_param, param_bytes. cbv zeta.
    cbn [h set_h blake2s_init0 digest_length key_length fanout depth
         leaf_length node_offset node_depth inner_length salt personal].
    change (store32 LittleEndian 0) with [0; 0; 0; 0].
    change (store48 0) with [0; 0; 0; 0; 0; 0].
    cbn [repeat app map seq].
    unfold load32, word_of_bytes, idx.
    cbn [skipn firstn nth Nat.mul Nat.add blake2s_IV].
    repeat (f_equal; try reflexivity). }
  split.
  - unfold blake2s_init.
    destruct ((outlen =? 0) || (outlen >? BLAKE2S_OUTBYTES)); [exact I|].
    replace (outlen + 2 ^ 16 + 2 ^ 24) with (outlen + 2 ^ 8 * 0 + 2 ^ 16 + 2 ^ 24)
      by lia.
    apply (Hh 0).
  - destruct (blake2s_init_key LittleEndian outlen key keylen) as [st|] eqn:E;
      [|exact I].
    destruct (blake2s_init_key_inv _ _ _ _ _ E)
      as (k & _ & _ & _ & _ & Hk2 & ->).
    destruct (blake2s_update_fits_fields LittleEndian
                (blake2s_init_param LittleEndian
                   (mk_param outlen keylen 1 1 (store32 LittleEndian 0)
                             (store48 0) 0 0 (repeat 0 8) (repeat 0 8)))
                (memcpy (repeat 0 64) 0 k (Z.to_nat keylen)))
      as (Eh & _).
    { apply init_param_ok. }
    { destruct (key_block_length k (Z.to_nat keylen)) as [Hlen _]; [lia|].
      change (buflen (blake2s_init_param LittleEndian _)) with 0. lia. }
    rewrite Eh. apply (Hh keylen).
Qed.

(** ** Rotation *)

Lemma testbit_high (w n i : Z) :
  0 <= n -> 0 <= w < 2 ^ n -> n <= i -> Z.testbit w i = false.
Proof.
  intros Hn Hw Hi.
  destruct (Z.eq_dec w 0) as [->|Hne]; [apply Z.testbit_0_l|].
  apply Z.bits_above_log2; [lia|].
  assert (Z.log2 w < n) by (apply Z.log2_lt_pow2; lia). lia.
Qed.

Lemma lor_range (a b n : Z) :
  0 < n -> 0 <= a < 2 ^ n -> 0 <= b < 2 ^ n -> 0 <= Z.lor a b < 2 ^ n.
Proof.
  intros Hn Ha Hb.
  assert (H0 : 0 <= Z.lor a b) by (apply Z.lor_nonneg; lia).
  split; [exact H0|].
  destruct (Z.eq_dec (Z.lor a b) 0) as [->|Hne]; [lia|].
  apply Z.log2_lt_pow2; [lia|].
  rewrite Z.log2_lor by lia.
  assert (La : Z.log2 a < n).
  { destruct (Z.eq_dec a 0) as [->|]; [cbn; lia|]. apply Z.log2_lt_pow2; lia. }
  assert (Lb : Z.log2 b < n).
  { destruct (Z.eq_dec b 0) as [->|]; [cbn; lia|]. apply Z.log2_lt_pow2; lia. }
  lia.
Qed.

Lemma rotr32_range (w c : Z) :
  word32 w -> 0 < c < 32 -> word32 (rotr32 w c).
Proof.
  intros Hw Hc. unfold word32, rotr32 in *.
  apply lor_range; [lia | | apply wrap32_range].
  rewrite Z.shiftr_div_pow2 by lia.
  assert (0 < 2 ^ c) by (apply Z.pow_pos_nonneg; lia).
  split; [apply Z.div_pos; lia|].
  apply Z.le_lt_trans with w; [|lia].
  apply Z.div_le_upper_bound; nia.
Qed.

Lemma rotr32_testbit (w c i : Z) :
  word32 w -> 0 < c < 32 -> 0 <= i < 32 ->
  Z.testbit (rotr32 w c) i = Z.testbit w ((i + c) mod 32).
Proof.
  intros Hw Hc Hi. unfold rotr32, wrap32.
  rewrite Z.lor_spec, Z.shiftr_spec by lia.
  rewrite Z.mod_pow2_bits_low by lia.
  rewrite Z.shiftl_spec by lia.
  destruct (Z_lt_ge_dec (i + c) 32) as [Hlt|Hge].
  - rewrite Z.mod_small by lia.
    rewrite (Z.testbit_neg_r w (i - (32 - c))) by lia.
    apply orb_false_r.
  - rewrite (testbit_high w 32 (i + c)) by (assumption || lia).
    cbn [orb]. f_equal.
    apply Z.mod_unique with (q := 1); lia.
Qed.

(** X11.  [rotr32] by 1 to 31 bits on a 32-bit word is a bitwise rotation to
    the right: the result is again a 32-bit word, its bit [i] is bit
    [(i + c) mod 32] of the argument, and rotating on by [32 - c] gives the
    argument back. *)
Theorem rotr32_rotates (w c : Z) :
  word32 w -> 0 < c < 32 ->
  word32 (rotr32 w c)
  /\ (forall i, 0 <= i < 32 ->
                Z.testbit (rotr32 w c) i = Z.testbit w ((i + c) mod 32))
  /\ rotr32 (rotr32 w c) (32 - c) = w.
Proof.
  intros Hw Hc.
  pose proof (rotr32_range w c Hw Hc) as Hr.
  split; [exact Hr|]. split; [intros i Hi; now apply rotr32_testbit|].
  assert (Hc' : 0 < 32 - c < 32) by lia.
  pose proof (rotr32_range _ _ Hr Hc') as Hr'.
  apply Z.bits_inj'. intros i Hi.
  destruct (Z_lt_ge_dec i 32) as [Hlt|Hge].
  - rewrite rotr32_testbit by (assumption || lia).
    rewrite rotr32_testbit
      by (try assumption; apply Z.mod_pos_bound; lia).
    f_equal.
    destruct (Z_lt_ge_dec i c) as [Hic|Hic].
    + replace ((i + (32 - c)) mod 32) with (i + 32 - c)
        by (rewrite Z.mod_small; lia).
      symmetry. apply Z.mod_unique with (q := 1); lia.
    + replace ((i + (32 - c)) mod 32) with (i - c)
        by (apply Z.mod_unique with (q := 1); lia).
      rewrite Z.mod_small; lia.
  - rewrite (testbit_high _ 32 i) by (try apply Hr'; lia).
    rewrite (testbit_high w 32 i) by (try apply Hw; lia).
    reflexivity.
Qed.

Lemma rotr32_rotates_witness :
  word32 0x80000001 /\ 0 < 16 < 32
  /\ rotr32 (rotr32 0x80000001 16) (32 - 16) = 0x80000001.
Proof.
  assert (Hw : word32 0x80000001) by (unfold word32; lia).
  assert (Hc : 0 < 16 < 32) by lia.
  split; [exact Hw | split; [exact Hc |]].
  exact (proj2 (proj2 (rotr32_rotates 0x80000001 16 Hw Hc))).
Defined.

(** ** Words and bytes *)

Lemma store32_load32 (host : byte_order) (b0 b1 b2 b3 : Z) :
  byte8 b0 -> byte8 b1 -> byte8 b2 -> byte8 b3 ->
  word32 (load32 host [b0; b1; b2; b3])
  /\ store32 host (load32 host [b0; b1; b2; b3]) = [b0; b1; b2; b3].
Proof.
  unfold byte8, word32. intros H0 H1 H2 H3.
  unfold load32, store32, bytes_of_word, word_of_bytes, u8.
  rewrite !Z.shiftr_div_pow2 by lia.
  change (2 ^ 8) with 256 in *; change (2 ^ 16) with 65536;
    change (2 ^ 24) with 16777216; change (2 ^ 32) with 4294967296.
  destruct host; cbn [rev app firstn nth]; (split; [lia|]);
    repeat (f_equal; try (Z.div_mod_to_equations; lia)).
Qed.

(** X12.  On every host [store32] and [load32] are inverse to each other: a
    32-bit word stored and loaded again is unchanged, and four bytes loaded
    as a word and stored again are unchanged.  (Which value the four bytes
    stand for depends on the host.) *)
Theorem store32_load32_round_trip
        (host : byte_order) (w b0 b1 b2 b3 : Z) :
  word32 w -> byte8 b0 -> byte8 b1 -> byte8 b2 -> byte8 b3 ->
  load32 host (store32 host w) = w
  /\ store32 host (load32 host [b0; b1; b2; b3]) = [b0; b1; b2; b3]
  /\ word32 (load32 host [b0; b1; b2; b3])
  /\ length (store32 host w) = 4%nat.
Proof.
  intros Hw H0 H1 H2 H3.
  destruct (store32_load32 host b0 b1 b2 b3 H0 H1 H2 H3) as [Hr Hs].
  repeat split; try apply Hr; try assumption.
  - now apply load32_store32.
  - apply store32_bytes.
Qed.

Lemma store32_load32_round_trip_witness :
  word32 0x01020304 /\ byte8 1 /\ byte8 2 /\ byte8 3 /\ byte8 4
  /\ load32 BigEndian (store32 BigEndian 0x01020304) = 0x01020304
  /\ store32 BigEndian (load32 BigEndian [1; 2; 3; 4]) = [1; 2; 3; 4].
Proof.
  assert (Hw : word32 0x01020304) by (unfold word32; lia).
  assert (H1 : byte8 1) by (unfold byte8; lia).
  assert (H2 : byte8 2) by (unfold byte8; lia).
  assert (H3 : byte8 3) by (unfold byte8; lia).
  assert (H4 : byte8 4) by (unfold byte8; lia).
  repeat (split; [assumption|]).
  destruct (store32_load32_round_trip BigEndian 0x01020304 1 2 3 4
              Hw H1 H2 H3 H4) as (E1 & E2 & _).
  split; [exact E1 | exact E2].
Defined.

(** X13.  [store48] writes the low 48 bits of its argument as six 8-bit
    values, least significant first, on every host: for an argument below
    2^48, byte [i] weighted by 2^(8 i) sums up to the argument; bits from 48
    on are dropped. *)
Theorem store48_little_endian (w : Z) :
  0 <= w ->
  let bs := store48 w in
  length bs = 6%nat /\ Forall byte8 bs
  /\ idx bs 0 + 2 ^ 8 * idx bs 1 + 2 ^ 16 * idx bs 2 + 2 ^ 24 * idx bs 3
     + 2 ^ 32 * idx bs 4 + 2 ^ 40 * idx bs 5
     = w mod 2 ^ 48.
Proof.
  intros Hw. cbv zeta. unfold store48, u8.
  split; [reflexivity|]. split.
  - repeat constructor; unfold byte8; apply Z.mod_pos_bound; lia.
  - cbn [idx nth]. rewrite !Z.shiftr_div_pow2 by lia.
    change (2 ^ 8) with 256; change (2 ^ 16) with 65536;
      change (2 ^ 24) with 16777216; change (2 ^ 32) with 4294967296;
      change (2 ^ 40) with 1099511627776; change (2 ^ 48) with 281474976710656.
    Z.div_mod_to_equations. lia.
Qed.

Lemma store48_little_endian_witness :
  0 <= 0x0102030405060708
  /\ store48 0x0102030405060708 = [8; 7; 6; 5; 4; 3]
  /\ idx (store48 0x0102030405060708) 0
     + 2 ^ 8 * idx (store48 0x0102030405060708) 1
     + 2 ^ 16 * idx (store48 0x0102030405060708) 2
     + 2 ^ 24 * idx (store48 0x0102030405060708) 3
     + 2 ^ 32 * idx (store48 0x0102030405060708) 4
     + 2 ^ 40 * idx (store48 0x0102030405060708) 5
     = 0x0102030405060708 mod 2 ^ 48.
Proof.
  assert (Hw : 0 <= 0x0102030405060708) by lia.
  split; [exact Hw | split; [reflexivity |]].
  exact (proj2 (proj2 (store48_little_endian 0x0102030405060708 Hw))).
Defined.

(** ** Zeroing memory *)

Lemma upd_split (p : nat) (x : Z) (v : list Z) :
  (p < length v)%nat -> upd p x v = firstn p v ++ x :: skipn (S p) v.
Proof.
  revert p. induction v as [|y v IH]; intros [|p] Hp; cbn in *; try lia.
  - reflexivity.
  - f_equal. apply IH. lia.
Qed.

Lemma secure_zero_loop_memset (n : nat) :
  forall (v : list Z) (p : nat),
    (p + n <= length v)%nat -> secure_zero_loop v p n = memset v p 0 n.
Proof.
  induction n as [|n IH]; intros v p Hlen; cbn [secure_zero_loop].
  - unfold memset. cbn [repeat app]. rewrite Nat.add_0_r.
    now rewrite firstn_skipn.
  - rewrite IH by (rewrite upd_length; lia).
    unfold memset. rewrite upd_split by lia.
    set (rest := skipn (S p) v).
    assert (Hp : length (firstn p v) = p) by (rewrite length_firstn; lia).
    rewrite firstn_app, Hp.
    rewrite (firstn_all2 (n := S p) (firstn p v)) by lia.
    replace (S p - p)%nat with 1%nat by lia. cbn [firstn].
    rewrite skipn_app, Hp.
    rewrite (skipn_all2 (n := (S p + n)%nat) (firstn p v)) by lia.
    replace (S p + n - p)%nat with (S n) by lia. cbn [skipn app repeat].
    subst rest. rewrite skipn_skipn, <- app_assoc. cbn [app].
    replace (n + S p)%nat with (p + S n)%nat by lia. reflexivity.
Qed.

(** X14.  The byte loop of [secure_zero_memory] on an area of at least [n]
    bytes overwrites exactly the first [n] bytes with zeros: the result is
    [n] zeros followed by the untouched rest, which is what [memset] to zero
    gives. *)
Theorem secure_zero_memory_zeroes (v : list Z) (n : nat) :
  (n <= length v)%nat ->
  secure_zero_loop v 0 n = repeat 0 n ++ skipn n v
  /\ secure_zero_loop v 0 n = secure_zero_memory v n
  /\ length (secure_zero_loop v 0 n) = length v.
Proof.
  intros Hn. rewrite secure_zero_loop_memset by lia.
  unfold secure_zero_memory, memset. cbn [firstn Nat.add app].
  repeat split.
  rewrite length_app, repeat_length, length_skipn. lia.
Qed.

Lemma secure_zero_memory_zeroes_witness :
  le 2 (length [5; 6; 7])
  /\ secure_zero_loop [5; 6; 7] 0 2 = repeat 0 2 ++ skipn 2 [5; 6; 7].
Proof.
  assert (H : le 2 (length [5; 6; 7])) by (cbn; lia).
  split; [exact H|].
  exact (proj1 (secure_zero_memory_zeroes [5; 6; 7] 2 H)).
Defined.

(** ** Setting and clearing the last-block flags *)

(** X15.  [blake2s_set_lastblock] sets [f[0]] to all-ones, and [f[1]] too
    exactly when [last_node] is set; [blake2s_clear_lastblock] clears the
    same flags, so that clearing after setting leaves [f[0]] zero and [f[1]]
    zero or untouched; neither changes any other field of the state. *)
Theorem lastblock_set_and_clear (st : blake2s_state) :
  length (f st) = 2%nat ->
  f (blake2s_set_lastblock st)
  = [2 ^ 32 - 1; if last_node st =? 0 then idx (f st) 1 else 2 ^ 32 - 1]
  /\ f (blake2s_clear_lastblock (blake2s_set_lastblock st))
     = [0; if last_node st =? 0 then idx (f st) 1 else 0]
  /\ set_f (blake2s_set_lastblock st) (f st) = st
  /\ set_f (blake2s_clear_lastblock st) (f st) = st.
Proof.
  intros Hlen. destruct st as [hh tt ff bb bl ln cs]. cbn [f] in Hlen.
  destruct ff as [|f0 [|f1 [|? ?]]]; try discriminate.
  unfold blake2s_clear_lastblock, blake2s_set_lastblock,
    blake2s_clear_lastnode, blake2s_set_lastnode.
  cbv zeta. cbn [last_node f set_f].
  destruct (ln =? 0) eqn:E;
    cbn [last_node f set_f upd idx nth]; rewrite ?E;
    cbn [last_node f set_f upd idx nth]; repeat split.
Qed.

Lemma lastblock_set_and_clear_witness :
  let st := mk_state blake2s_IV [0; 0] [0; 0] (repeat 0 128) 0 1 [] in
  length (f st) = 2%nat
  /\ f (blake2s_set_lastblock st) = [2 ^ 32 - 1; 2 ^ 32 - 1]
  /\ f (blake2s_clear_lastblock (blake2s_set_lastblock st)) = [0; 0].
Proof.
  cbv zeta.
  assert (H : length (f (mk_state blake2s_IV [0; 0] [0; 0] (repeat 0 128) 0 1 []))
              = 2%nat) by reflexivity.
  split; [exact H|].
  destruct (lastblock_set_and_clear _ H) as (E1 & E2 & _).
  split; [exact E1 | exact E2].
Defined.

(** ** The parameter block *)

(** X16.  On a parameter block whose array fields have their declared sizes,
    every setter writes its own field and no other byte of the 32-byte
    block: the one-byte setters write byte 0 (digest length), 2 (fanout),
    3 (depth), 14 (node depth) and 15 (inner length); the leaf length is the
    four bytes from offset 4, the node offset the six bytes from offset 8,
    the salt and the personalization the eight bytes from offsets 16
    and 24. *)
Theorem param_setters_layout
        (host : byte_order) (P : blake2s_param) (x : Z) (s : list Z) :
  param_ok P -> (8 <= length s)%nat ->
  length (param_bytes P) = 32%nat
  /\ param_bytes (blake2s_param_set_digest_length P x) = upd 0 x (param_bytes P)
  /\ param_bytes (blake2s_param_set_fanout P x) = upd 2 x (param_bytes P)
  /\ param_bytes (blake2s_param_set_max_depth P x) = upd 3 x (param_bytes P)
  /\ param_bytes (blake2s_param_set_leaf_length host P x)
     = memcpy (param_bytes P) 4 (store32 host x) 4
  /\ param_bytes (blake2s_param_set_node_offset P x)
     = memcpy (param_bytes P) 8 (store48 x) 6
  /\ param_bytes (blake2s_param_set_node_depth P x) = upd 14 x (param_bytes P)
  /\ param_bytes (blake2s_param_set_inner_length P x) = upd 15 x (param_bytes P)
  /\ param_bytes (blake2s_param_set_salt P s) = memcpy (param_bytes P) 16 s 8
  /\ param_bytes (blake2s_param_set_personal P s) = memcpy (param_bytes P) 24 s 8.
Proof.
  intros (Hl & Hn & Hs & Hp) Hlen.
  destruct P as [dl kl fo de ll no nd il sa pe]. cbn in Hl, Hn, Hs, Hp.
  do 4 (destruct ll as [|? ll]; [discriminate|]).
  destruct ll; [|discriminate].
  do 6 (destruct no as [|? no]; [discriminate|]).
  destruct no; [|discriminate].
  do 8 (destruct sa as [|? sa]; [discriminate|]).
  destruct sa; [|discriminate].
  do 8 (destruct pe as [|? pe]; [discriminate|]).
  destruct pe; [|discriminate].
  do 8 (destruct s as [|? s]; [cbn in Hlen; lia|]).
  repeat split; destruct host; reflexivity.
Qed.

Lemma param_setters_layout_witness :
  param_ok (sequential_param LittleEndian 32 0)
  /\ le 8 (length [1; 2; 3; 4; 5; 6; 7; 8])
  /\ param_bytes (blake2s_param_set_salt (sequential_param LittleEndian 32 0)
                                         [1; 2; 3; 4; 5; 6; 7; 8])
     = memcpy (param_bytes (sequential_param LittleEndian 32 0)) 16
              [1; 2; 3; 4; 5; 6; 7; 8] 8.
Proof.
  assert (Hok : param_ok (sequential_param LittleEndian 32 0))
    by (repeat split).
  assert (Hs : le 8 (length [1; 2; 3; 4; 5; 6; 7; 8])) by (cbn; lia).
  split; [exact Hok | split; [exact Hs |]].
  destruct (param_setters_layout LittleEndian _ 0 _ Hok Hs)
    as (_ & _ & _ & _ & _ & _ & _ & _ & E & _).
  exact E.
Defined.

(** X17.  The two ways of starting an unkeyed session agree: a parameter
    block with key length 0 and array fields of the declared sizes, filled
    by the setters with the sequential values (fanout and depth 1, all else
    zero) and passed to [blake2s_init_param], gives the state
    [blake2s_init] returns. *)
Theorem init_param_of_setters
        (host : byte_order) (P : blake2s_param) (outlen : Z) :
  param_ok P -> key_length P = 0 -> 1 <= outlen <= 32 ->
  blake2s_init host outlen
  = Ok (blake2s_init_param host
          (blake2s_param_set_personal
             (blake2s_param_set_salt
                (blake2s_param_set_inner_length
                   (blake2s_param_set_node_depth
                      (blake2s_param_set_node_offset
                         (blake2s_param_set_leaf_length host
                            (blake2s_param_set_max_depth
                               (blake2s_param_set_fanout
                                  (blake2s_param_set_digest_length P outlen) 1)
                               1)
                            0)
                         0)
                      0)
                   0)
                (repeat 0 8))
             (repeat 0 8))).
Proof.
  intros (Hl & Hn & Hs & Hp) Hk Ho. unfold blake2s_init.
  replace (outlen =? 0) with false by (symmetry; apply Z.eqb_neq; lia).
  replace (outlen >? BLAKE2S_OUTBYTES) with false
    by (rewrite Z.gtb_ltb; symmetry; apply Z.ltb_ge; unfold BLAKE2S_OUTBYTES; lia).
  cbn [orb]. cbv zeta. do 2 f_equal.
  destruct P as [dl kl fo de ll no nd il sa pe]. cbn in Hl, Hn, Hs, Hp, Hk.
  subst kl.
  do 4 (destruct ll as [|? ll]; [discriminate|]).
  destruct ll; [|discriminate].
  do 6 (destruct no as [|? no]; [discriminate|]).
  destruct no; [|discriminate].
  do 8 (destruct sa as [|? sa]; [discriminate|]).
  destruct sa; [|discriminate].
  do 8 (destruct pe as [|? pe]; [discriminate|]).
  destruct pe; [|discriminate].
  destruct host; reflexivity.
Qed.

Lemma init_param_of_setters_witness :
  let P := mk_param 9 0 9 9 [9; 9; 9; 9] [9; 9; 9; 9; 9; 9] 9 9
                    (repeat 9 8) (repeat 9 8) in
  param_ok P /\ key_length P = 0 /\ 1 <= 20 <= 32
  /\ blake2s_init BigEndian 20
     = Ok (blake2s_init_param BigEndian
             (blake2s_param_set_personal
                (blake2s_param_set_salt
                   (blake2s_param_set_inner_length
                      (blake2s_param_set_node_depth
                         (blake2s_param_set_node_offset
                            (blake2s_param_set_leaf_length BigEndian
                               (blake2s_param_set_max_depth
                                  (blake2s_param_set_fanout
                                     (blake2s_param_set_digest_length P 20) 1)
                                  1)
                               0)
                            0)
                         0)
                      0)
                   (repeat 0 8))
                (repeat 0 8))).
Proof.
  cbv zeta.
  set (P := mk_param 9 0 9 9 [9; 9; 9; 9] [9; 9; 9; 9; 9; 9] 9 9
                     (repeat 9 8) (repeat 9 8)).
  assert (Hok : param_ok P) by (repeat split).
  assert (Hk : key_length P = 0) by reflexivity.
  assert (Ho : 1 <= 20 <= 32) by lia.
  split; [exact Hok | split; [exact Hk | split; [exact Ho |]]].
  exact (init_param_of_setters BigEndian P 20 Hok Hk Ho).
Defined.

(** ** What is compressed *)

Section Stream.

Variable host : byte_order.

Lemma firstn_plus (a b : nat) (l : list Z) :
  firstn (a + b) l = firstn a l ++ firstn b (skipn a l).
Proof.
  revert l. induction a as [|a IH]; intros [|x l]; cbn [Nat.add firstn skipn app].
  - now rewrite firstn_nil.
  - reflexivity.
  - now rewrite firstn_nil.
  - f_equal. apply IH.
Qed.

Lemma firstn_repeat_le (x : Z) (n m : nat) :
  (n <= m)%nat -> firstn n (repeat x m) = repeat x n.
Proof.
  revert m. induction n as [|n IH]; intros [|m] H; cbn; try lia; try reflexivity.
  f_equal. apply IH. lia.
Qed.

Lemma block_count_step (n : Z) :
  128 < n -> block_count (n - 64) = block_count n - 1.
Proof. intros Hn. unfold block_count. Z.div_mod_to_equations. lia. Qed.

Lemma final_flushed_buf (st : blake2s_state) :
  state_ok st ->
  let st1 := final_flushed host st in
  length (buf st1) = 128%nat
  /\ 0 <= buflen st1 <= 64
  /\ firstn (Z.to_nat (buflen st1)) (buf st1)
     = (if buflen st >? 64
        then firstn (Z.to_nat (buflen st - 64)) (skipn 64 (buf st))
        else firstn (Z.to_nat (buflen st)) (buf st)).
Proof.
  intros [Hb Hl]. cbv zeta. unfold final_flushed.
  destruct (buflen st >? 64) eqn:E; rewrite Z.gtb_ltb in E;
    [apply Z.ltb_lt in E | apply Z.ltb_ge in E].
  - cbn [buf buflen set_buf set_buflen].
    assert (Hf : length (firstn (Z.to_nat (buflen st - 64)) (skipn 64 (buf st)))
                 = Z.to_nat (buflen st - 64))
      by (rewrite length_firstn, length_skipn; lia).
    repeat split; try lia.
    + rewrite length_app, Hf, length_skipn. lia.
    + rewrite firstn_app, Hf, Nat.sub_diag. cbn [firstn].
      rewrite app_nil_r. apply firstn_all2. lia.
  - repeat split; (assumption || lia).
Qed.

(** The blocks [blake2s_final] compresses: the buffered bytes, zero-padded
    to one or two full blocks. *)
Lemma blake2s_final_stream (st : blake2s_state) (out : list Z) (outlen : Z) :
  state_ok st ->
  exists new,
    calls (fst (blake2s_final host st out outlen)) = calls st ++ new
    /\ concat (map call_block new)
       = firstn (Z.to_nat (buflen st)) (buf st)
         ++ repeat 0 (Z.to_nat (64 * block_count (buflen st) - buflen st)).
Proof.
  intros Hok.
  destruct (blake2s_final_state host st out outlen Hok) as [E _]. rewrite E.
  destruct (final_flushed_fields host st) as (_ & _ & _ & El1 & Ec1).
  destruct (final_flushed_buf st Hok) as (Hlen1 & Hb1 & Ef1).
  set (st1 := final_flushed host st) in *.
  assert (Hpad : length (final_padded st1) = 128%nat).
  { unfold final_padded. rewrite length_app, length_firstn, repeat_length. lia. }
  destruct (compress_frame host
              (set_buf (blake2s_set_lastblock
                          (blake2s_increment_counter st1 (buflen st1)))
                       (final_padded st1)) (final_padded st1))
    as (_ & _ & _ & _ & _ & Ec).
  destruct (set_lastblock_frame (blake2s_increment_counter st1 (buflen st1)))
    as (_ & _ & _ & _ & _ & Ec').
  cbn [calls set_buf] in Ec. rewrite Ec' in Ec.
  change (calls (blake2s_increment_counter st1 (buflen st1)))
    with (calls st1) in Ec.
  rewrite Ec, loaded_bytes_front by lia.
  assert (Hlast : firstn 64 (final_padded st1)
                  = firstn (Z.to_nat (buflen st1)) (buf st1)
                    ++ repeat 0 (64 - Z.to_nat (buflen st1))).
  { unfold final_padded.
    assert (Hf : length (firstn (Z.to_nat (buflen st1)) (buf st1))
                 = Z.to_nat (buflen st1)) by (rewrite length_firstn; lia).
    rewrite firstn_app, Hf.
    rewrite firstn_all2 by lia. f_equal.
    apply firstn_repeat_le. lia. }
  rewrite Hlast, Ef1, Ec1, El1.
  destruct Hok as [Hb Hl]. unfold block_count.
  destruct (buflen st >? 64) eqn:Eb; rewrite Z.gtb_ltb in Eb;
    [apply Z.ltb_lt in Eb | apply Z.ltb_ge in Eb].
  - eexists [_; _]. rewrite <- app_assoc. split; [reflexivity|].
    cbn [map concat call_block app]. rewrite app_nil_r.
    rewrite loaded_bytes_front by lia.
    replace (Z.to_nat (buflen st)) with (64 + Z.to_nat (buflen st - 64))%nat
      by lia.
    rewrite firstn_plus, <- app_assoc. do 3 f_equal.
    Z.div_mod_to_equations. lia.
  - eexists [_]. split; [reflexivity|].
    cbn [map concat call_block app]. rewrite app_nil_r.
    do 2 f_equal. Z.div_mod_to_equations. lia.
Qed.

Lemma fits_prefix (st : blake2s_state) (inp : list Z) :
  state_ok st -> buflen st + Z.of_nat (length inp) <= 128 ->
  firstn (Z.to_nat (buflen (blake2s_update host st inp)))
         (buf (blake2s_update host st inp))
  = firstn (Z.to_nat (buflen st)) (buf st) ++ inp.
Proof.
  intros Hok Hle.
  destruct (blake2s_update_fits_fields host st inp Hok Hle)
    as (_ & _ & _ & _ & _ & El & Eb).
  rewrite El, Eb. destruct Hok as [Hb Hl].
  rewrite app_assoc, firstn_app.
  rewrite firstn_all2 by (rewrite length_app, length_firstn; lia).
  rewrite length_app, length_firstn.
  replace (Z.to_nat (buflen st + Z.of_nat (length inp))
           - (Nat.min (Z.to_nat (buflen st)) (length (buf st)) + length inp))%nat
    with 0%nat by lia.
  cbn [firstn]. now rewrite app_nil_r.
Qed.

Lemma update_final_stream (st : blake2s_state) (inp out : list Z) (outlen : Z) :
  state_ok st ->
  exists new,
    calls (fst (blake2s_final host (blake2s_update host st inp) out outlen))
    = calls st ++ new
    /\ concat (map call_block new)
       = firstn (Z.to_nat (buflen st)) (buf st) ++ inp
         ++ repeat 0 (Z.to_nat
                        (64 * block_count (buflen st + Z.of_nat (length inp))
                         - (buflen st + Z.of_nat (length inp)))).
Proof.
  revert st inp. apply (update_ind host).
  - intros st inp Hok Hle.
    destruct (blake2s_final_stream (blake2s_update host st inp) out outlen)
      as (new & Ec & Es); [now apply blake2s_update_ok|].
    destruct (blake2s_update_fits_fields host st inp Hok Hle)
      as (_ & _ & _ & _ & Ecalls & El & _).
    exists new. rewrite Ec, Ecalls. split; [reflexivity|].
    rewrite Es, fits_prefix by assumption.
    rewrite El, <- app_assoc. reflexivity.
  - intros st inp Hok Hgt (new & Ec & Es).
    rewrite blake2s_update_exceeds by assumption.
    assert (Hin : 128 - buflen st <= Z.of_nat (length inp)) by lia.
    destruct (update_block_fields host st inp Hok Hin)
      as (_ & _ & _ & _ & Ecalls & Ebuf & El).
    pose proof (fill_buffer_length st inp Hok Hin) as Hfull.
    eexists (_ :: new). rewrite Ec, Ecalls, <- app_assoc.
    split; [reflexivity|].
    cbn [map concat call_block]. rewrite Es, El, Ebuf.
    change (Z.to_nat 64) with 64%nat.
    assert (Hhalf : firstn 64 (skipn 64 (fill_buffer st inp)
                               ++ skipn 64 (fill_buffer st inp))
                    = skipn 64 (fill_buffer st inp)).
    { assert (Hs : length (skipn 64 (fill_buffer st inp)) = 64%nat)
        by (rewrite length_skipn; lia).
      rewrite firstn_app, Hs, Nat.sub_diag, firstn_O, app_nil_r.
      apply firstn_all2. lia. }
    rewrite Hhalf, length_skipn.
    destruct Hok as [Hb Hl].
    replace (64 + Z.of_nat (length inp - Z.to_nat (128 - buflen st)))
      with (buflen st + Z.of_nat (length inp) - 64) by lia.
    rewrite block_count_step by lia.
    rewrite !app_assoc. f_equal; [|f_equal; lia].
    rewrite firstn_skipn. unfold fill_buffer.
    rewrite <- app_assoc. f_equal. apply firstn_skipn.
Qed.

End Stream.

(** X18.  What is hashed is the message, split into 64-byte blocks, the last
    one zero-padded: starting from a well-formed state, the blocks consumed
    by the calls of [blake2s_compress] made during the updates on any chunks
    and the [blake2s_final] that follows are, in order and joined together,
    the bytes buffered before, then the bytes of all the chunks, then zeros
    up to the next multiple of 64 (a whole block of zeros when there is
    nothing to hash).  No input byte is skipped, repeated or reordered. *)
Theorem compressed_blocks_are_the_message
        (host : byte_order) (st : blake2s_state) (chunks : list (list Z))
        (out : list Z) (outlen : Z) :
  state_ok st ->
  exists new,
    calls (fst (blake2s_final host (update_all host st chunks) out outlen))
    = calls st ++ new
    /\ concat (map call_block new)
       = firstn (Z.to_nat (buflen st)) (buf st) ++ concat chunks
         ++ repeat 0 (Z.to_nat
                        (64 * block_count
                                (buflen st + Z.of_nat (length (concat chunks)))
                         - (buflen st + Z.of_nat (length (concat chunks))))).
Proof.
  intros Hok. rewrite update_all_concat by assumption.
  now apply update_final_stream.
Qed.

Lemma compressed_blocks_are_the_message_witness :
  let st := blake2s_init_param LittleEndian (sequential_param LittleEndian 32 0) in
  state_ok st
  /\ exists new,
      calls (fst (blake2s_final LittleEndian
                    (update_all LittleEndian st [repeat 1 60; repeat 2 10])
                    (repeat 0 32) 32))
      = calls st ++ new
      /\ concat (map call_block new)
         = firstn (Z.to_nat (buflen st)) (buf st)
           ++ concat [repeat 1 60; repeat 2 10]
           ++ repeat 0 (Z.to_nat
                          (64 * block_count
                                  (buflen st
                                   + Z.of_nat (length (concat [repeat 1 60;
                                                               repeat 2 10])))
                           - (buflen st
                              + Z.of_nat (length (concat [repeat 1 60;
                                                          repeat 2 10]))))).
Proof.
  cbv zeta.
  set (st := blake2s_init_param LittleEndian (sequential_param LittleEndian 32 0)).
  assert (Hok : state_ok st) by apply init_param_ok.
  split; [exact Hok|].
  exact (compressed_blocks_are_the_message LittleEndian st
           [repeat 1 60; repeat 2 10] (repeat 0 32) 32 Hok).
Defined.

(** ** The words of the state stay 32-bit values *)

Section Words.

Variable host : byte_order.

Lemma lxor_range (a b : Z) : word32 a -> word32 b -> word32 (Z.lxor a b).
Proof.
  unfold word32. intros Ha Hb.
  assert (H0 : 0 <= Z.lxor a b) by (apply Z.lxor_nonneg; lia).
  split; [exact H0|].
  destruct (Z.eq_dec (Z.lxor a b) 0) as [->|Hne]; [lia|].
  apply Z.log2_lt_pow2; [lia|].
  pose proof (Z.log2_lxor a b ltac:(lia) ltac:(lia)) as Hl.
  assert (La : Z.log2 a < 32).
  { destruct (Z.eq_dec a 0) as [->|]; [cbn; lia|]. apply Z.log2_lt_pow2; lia. }
  assert (Lb : Z.log2 b < 32).
  { destruct (Z.eq_dec b 0) as [->|]; [cbn; lia|]. apply Z.log2_lt_pow2; lia. }
  lia.
Qed.

Lemma idx_word (l : list Z) (i : nat) : Forall word32 l -> word32 (idx l i).
Proof.
  intros H. unfold idx. revert i.
  induction H as [|x l Hx Hl IH]; intros [|i]; cbn [nth];
    try (unfold word32; lia); auto.
Qed.

Lemma upd_word (l : list Z) (i : nat) (x : Z) :
  Forall word32 l -> word32 x -> Forall word32 (upd i x l).
Proof.
  intros H Hx. revert i.
  induction H as [|y l Hy Hl IH]; intros [|i]; cbn [upd]; constructor; auto.
Qed.

Lemma wrap32_word (z : Z) : word32 (wrap32 z).
Proof. apply wrap32_range. Qed.

Lemma G_words (m : list Z) (r i a b c d : nat) (v : list Z) :
  Forall word32 v -> Forall word32 (G m r i a b c d v).
Proof.
  intros Hv. unfold G. cbv zeta.
  repeat apply upd_word; try assumption;
    repeat first [ apply wrap32_word
                 | apply rotr32_range; [|lia]
                 | apply lxor_range
                 | apply idx_word; assumption ].
Qed.

Lemma ROUND_words (m : list Z) (r : nat) (v : list Z) :
  Forall word32 v -> Forall word32 (BLAKE2S_ROUND m r v).
Proof.
  intros Hv. unfold BLAKE2S_ROUND. cbv zeta.
  repeat apply G_words. exact Hv.
Qed.

Lemma IV_words : Forall word32 blake2s_IV.
Proof. repeat constructor; unfold word32; lia. Qed.

Lemma compress_words (st : blake2s_state) (block : list Z) :
  words_ok st -> words_ok (blake2s_compress host st block).
Proof.
  intros (Hlen & Hh & Ht & Hf).
  destruct (compress_frame host st block) as (Et & Ef & _).
  unfold words_ok. rewrite Et, Ef, compress_h_length.
  repeat split; try assumption.
  unfold blake2s_compress. cbv zeta. cbn [h set_h log_call].
  apply Forall_forall. intros x Hx. apply in_map_iff in Hx.
  destruct Hx as (i & <- & _).
  repeat apply lxor_range; apply idx_word; try assumption;
    repeat apply ROUND_words;
    (apply Forall_app; split;
     [ apply Forall_forall; intros y Hy; apply in_map_iff in Hy;
       destruct Hy as (j & <- & _); now apply idx_word
     | repeat constructor;
       repeat first [ apply lxor_range
                    | apply idx_word; (assumption || apply IV_words) ] ]).
Qed.

Lemma increment_counter_words (st : blake2s_state) (inc : Z) :
  words_ok st -> words_ok (blake2s_increment_counter st inc).
Proof.
  intros (Hlen & Hh & Ht & Hf). unfold words_ok, blake2s_increment_counter.
  cbv zeta. cbn [h t f set_t].
  repeat split; try assumption.
  repeat apply upd_word; try assumption; apply wrap32_word.
Qed.

Lemma set_lastblock_words (st : blake2s_state) :
  words_ok st -> words_ok (blake2s_set_lastblock st).
Proof.
  intros (Hlen & Hh & Ht & Hf).
  destruct (set_lastblock_frame st) as (Eh & Et & _).
  unfold words_ok. rewrite Eh, Et. repeat split; try assumption.
  unfold blake2s_set_lastblock, blake2s_set_lastnode. cbv zeta.
  destruct (last_node st =? 0); cbn [f set_f];
    repeat apply upd_word; try assumption; unfold word32; lia.
Qed.

Lemma words_ok_ext (a b : blake2s_state) :
  h a = h b -> t a = t b -> f a = f b -> words_ok a -> words_ok b.
Proof. unfold words_ok. intros -> -> ->. tauto. Qed.

Lemma blake2s_update_words (st : blake2s_state) (inp : list Z) :
  state_ok st -> words_ok st -> words_ok (blake2s_update host st inp).
Proof.
  revert st inp. apply (update_ind host (fun st inp => words_ok st -> _)).
  - intros st inp Hok Hle Hw.
    destruct (blake2s_update_fits_fields host st inp Hok Hle)
      as (Eh & Et & Ef & _).
    eapply words_ok_ext; [| | | exact Hw]; congruence.
  - intros st inp Hok Hgt IH Hw.
    rewrite blake2s_update_exceeds by assumption. apply IH.
    rewrite update_block_eq by (assumption || lia).
    eapply words_ok_ext;
      [| | | apply compress_words, increment_counter_words, Hw]; reflexivity.
Qed.

Lemma blake2s_final_words (st : blake2s_state) (out : list Z) (outlen : Z) :
  state_ok st -> words_ok st ->
  words_ok (fst (blake2s_final host st out outlen)).
Proof.
  intros Hok Hw.
  destruct (blake2s_final_state host st out outlen Hok) as [E _]. rewrite E.
  assert (Hw1 : words_ok (final_flushed host st)).
  { unfold final_flushed. destruct (buflen st >? 64); [|exact Hw].
    eapply words_ok_ext;
      [| | | apply compress_words, increment_counter_words, Hw]; reflexivity. }
  set (st1 := final_flushed host st) in *.
  apply compress_words.
  eapply words_ok_ext;
    [| | | apply set_lastblock_words, increment_counter_words, Hw1];
    reflexivity.
Qed.

End Words.

(** X19.  The 32-bit arithmetic is closed: from a well-formed state whose
    chaining, counter and flag words are 32-bit values, every update and the
    finalization lead to a state whose words are 32-bit values again,
    whatever the input bytes are. *)
Theorem words_stay_32_bit
        (host : byte_order) (st : blake2s_state) (chunks : list (list Z))
        (out : list Z) (outlen : Z) :
  state_ok st -> words_ok st ->
  words_ok (update_all host st chunks)
  /\ words_ok (fst (blake2s_final host (update_all host st chunks) out outlen)).
Proof.
  intros Hok Hw.
  assert (Hw' : words_ok (update_all host st chunks)).
  { rewrite update_all_concat by assumption. now apply blake2s_update_words. }
  split; [exact Hw'|].
  apply blake2s_final_words; [now apply update_all_ok | exact Hw'].
Qed.

Lemma words_stay_32_bit_witness :
  let st := blake2s_init_param LittleEndian (sequential_param LittleEndian 32 0) in
  state_ok st /\ words_ok st
  /\ words_ok (fst (blake2s_final LittleEndian
                      (update_all LittleEndian st [repeat 255 130])
                      (repeat 0 32) 32)).
Proof.
  cbv zeta.
  set (st := blake2s_init_param LittleEndian (sequential_param LittleEndian 32 0)).
  assert (Hok : state_ok st) by apply init_param_ok.
  assert (Hw : words_ok st).
  { unfold words_ok. split; [reflexivity|].
    repeat split; repeat constructor; vm_compute; intuition discriminate. }
  split; [exact Hok | split; [exact Hw |]].
  exact (proj2 (words_stay_32_bit LittleEndian st [repeat 255 130]
                  (repeat 0 32) 32 Hok Hw)).
Defined.

(** ** The parameters are part of the initial state *)

Section Binding.

Variable host : byte_order.

Lemma load32_injective (a0 a1 a2 a3 b0 b1 b2 b3 : Z) :
  byte8 a0 -> byte8 a1 -> byte8 a2 -> byte8 a3 ->
  byte8 b0 -> byte8 b1 -> byte8 b2 -> byte8 b3 ->
  load32 host [a0; a1; a2; a3] = load32 host [b0; b1; b2; b3] ->
  [a0; a1; a2; a3] = [b0; b1; b2; b3].
Proof.
  intros Ha0 Ha1 Ha2 Ha3 Hb0 Hb1 Hb2 Hb3 E.
  destruct (store32_load32 host a0 a1 a2 a3 Ha0 Ha1 Ha2 Ha3) as [_ <-].
  destruct (store32_load32 host b0 b1 b2 b3 Hb0 Hb1 Hb2 Hb3) as [_ <-].
  now rewrite E.
Qed.

Lemma lxor_cancel (a x y : Z) : Z.lxor a x = Z.lxor a y -> x = y.
Proof.
  intros E.
  rewrite <- (Z.lxor_0_l x), <- (Z.lxor_0_l y), <- (Z.lxor_nilpotent a).
  now rewrite !Z.lxor_assoc, E.
Qed.

Lemma sequential_param_binding (o k o' k' : Z) :
  byte8 o -> byte8 k -> byte8 o' -> byte8 k' ->
  h (blake2s_init_param host (sequential_param host o k))
  = h (blake2s_init_param host (sequential_param host o' k')) ->
  o = o' /\ k = k'.
Proof.
  intros Ho Hk Ho' Hk' E.
  assert (E0 : idx (h (blake2s_init_param host (sequential_param host o k))) 0
               = idx (h (blake2s_init_param host (sequential_param host o' k'))) 0)
    by now rewrite E.
  clear E.
  assert (Hw : forall x y,
             idx (h (blake2s_init_param host (sequential_param host x y))) 0
             = Z.lxor 0x6A09E667 (load32 host [x; y; 1; 1])).
  { intros x y. destruct host; reflexivity. }
  rewrite !Hw in E0.
  apply lxor_cancel in E0.
  assert (H1 : byte8 1) by (unfold byte8; lia).
  apply load32_injective in E0; try assumption.
  injection E0 as -> ->. now split.
Qed.

Lemma blake2s_init_key_h (outlen : Z) (key : option (list Z)) (keylen : Z)
      (st : blake2s_state) :
  blake2s_init_key host outlen key keylen = Ok st ->
  h st = h (blake2s_init_param host (sequential_param host outlen keylen)).
Proof.
  intros E.
  destruct (blake2s_init_key_inv _ _ _ _ _ E) as (k & _ & _ & _ & _ & Hk2 & ->).
  destruct (blake2s_update_fits_fields host
              (blake2s_init_param host (sequential_param host outlen keylen))
              (memcpy (repeat 0 64) 0 k (Z.to_nat keylen)))
    as (Eh & _).
  { apply init_param_ok. }
  { destruct (key_block_length k (Z.to_nat keylen)) as [Hlen _]; [lia|].
    change (buflen (blake2s_init_param host _)) with 0. lia. }
  exact Eh.
Qed.

End Binding.

(** X20.  The digest length and the key length are bound into the initial
    chaining value, on either host: two successful initializations, by
    [blake2s_init] or [blake2s_init_key], that differ in [outlen] or in
    [keylen] (both 8-bit values) never start from the same chaining value,
    whatever the keys are. *)
Theorem parameters_bound_into_state
        (host : byte_order) (o o' k k' : Z) (key key' : option (list Z)) :
  byte8 o -> byte8 o' -> byte8 k -> byte8 k' ->
  o <> o' \/ k <> k' ->
  match blake2s_init_key host o key k, blake2s_init_key host o' key' k' with
  | Ok st, Ok st' => h st <> h st'
  | _, _ => True
  end
  /\ match blake2s_init host o, blake2s_init_key host o' key' k' with
     | Ok st, Ok st' => h st <> h st'
     | _, _ => True
     end
  /\ match blake2s_init host o, blake2s_init host o' with
     | Ok st, Ok st' => o <> o' -> h st <> h st'
     | _, _ => True
     end.
Proof.
  intros Ho Ho' Hk Hk' Hne.
  assert (H0 : byte8 0) by (unfold byte8; lia).
  assert (Hinit : forall x st, blake2s_init host x = Ok st ->
                    h st = h (blake2s_init_param host (sequential_param host x 0))).
  { intros x st. unfold blake2s_init.
    destruct ((x =? 0) || (x >? BLAKE2S_OUTBYTES)); [discriminate|].
    now intros [= <-]. }
  repeat split.
  - destruct (blake2s_init_key host o key k) as [st|] eqn:E; [|exact I].
    destruct (blake2s_init_key host o' key' k') as [st'|] eqn:E'; [|exact I].
    rewrite (blake2s_init_key_h host _ _ _ _ E),
            (blake2s_init_key_h host _ _ _ _ E').
    intros Eh. apply sequential_param_binding in Eh; try assumption. lia.
  - destruct (blake2s_init host o) as [st|] eqn:E; [|exact I].
    destruct (blake2s_init_key host o' key' k') as [st'|] eqn:E'; [|exact I].
    rewrite (Hinit _ _ E), (blake2s_init_key_h host _ _ _ _ E').
    intros Eh. apply sequential_param_binding in Eh; try assumption.
    destruct (blake2s_init_key_inv _ _ _ _ _ E') as (kk & _ & _ & _ & Hk0 & _).
    lia.
  - destruct (blake2s_init host o) as [st|] eqn:E; [|exact I].
    destruct (blake2s_init host o') as [st'|] eqn:E'; [|exact I].
    rewrite (Hinit _ _ E), (Hinit _ _ E').
    intros Hoo Eh. apply sequential_param_binding in Eh; try assumption. lia.
Qed.

Lemma parameters_bound_into_state_witness :
  byte8 32 /\ byte8 16 /\ byte8 0 /\ (32 <> 16 \/ 0 <> 0)
  /\ match blake2s_init BigEndian 32, blake2s_init BigEndian 16 with
     | Ok st, Ok st' => 32 <> 16 -> h st <> h st'
     | _, _ => True
     end.
Proof.
  assert (H32 : byte8 32) by (unfold byte8; lia).
  assert (H16 : byte8 16) by (unfold byte8; lia).
  assert (H0 : byte8 0) by (unfold byte8; lia).
  assert (Hne : 32 <> 16 \/ 0 <> 0) by (left; lia).
  split; [exact H32 | split; [exact H16 | split; [exact H0 | split; [exact Hne |]]]].
  exact (proj2 (proj2 (parameters_bound_into_state BigEndian 32 16 0 0 None None
                         H32 H16 H0 H0 Hne))).
Defined.

(** ** Buffering does not change what is computed *)

Section Blocks.

Variable host : byte_order.

Lemma same_words_refl (a : blake2s_state) : same_words a a.
Proof. repeat split. Qed.

Lemma same_words_trans (a b c : blake2s_state) :
  same_words a b -> same_words b c -> same_words a c.
Proof. unfold same_words. intuition congruence. Qed.

Lemma compress_same (a b : blake2s_state) (blk blk' : list Z) :
  same_words a b -> firstn 64 blk = firstn 64 blk' ->
  same_words (blake2s_compress host a blk) (blake2s_compress host b blk').
Proof.
  intros (Eh & Et & Ef & En) Eb.
  destruct (compress_frame host a blk) as (Ta & Fa & _ & _ & Na & _).
  destruct (compress_frame host b blk') as (Tb & Fb & _ & _ & Nb & _).
  unfold same_words. rewrite Ta, Fa, Na, Tb, Fb, Nb.
  repeat split; try assumption.
  rewrite (compress_h_front host a blk), (compress_h_front host b blk'), Eb.
  now apply compress_h_ext.
Qed.

Lemma increment_counter_same (a b : blake2s_state) (inc : Z) :
  same_words a b ->
  same_words (blake2s_increment_counter a inc) (blake2s_increment_counter b inc).
Proof.
  intros (Eh & Et & Ef & En). unfold same_words, blake2s_increment_counter.
  cbv zeta. cbn [h t f last_node set_t]. rewrite Et. repeat split; assumption.
Qed.

Lemma set_lastblock_same (a b : blake2s_state) :
  same_words a b ->
  same_words (blake2s_set_lastblock a) (blake2s_set_lastblock b).
Proof.
  intros (Eh & Et & Ef & En).
  destruct (set_lastblock_frame a) as (Ha & Ta & _ & _ & Na & _).
  destruct (set_lastblock_frame b) as (Hb & Tb & _ & _ & Nb & _).
  unfold same_words. rewrite Ha, Ta, Na, Hb, Tb, Nb.
  repeat split; try assumption.
  unfold blake2s_set_lastblock, blake2s_set_lastnode. cbv zeta. rewrite En.
  destruct (last_node b =? 0); cbn [f set_f]; now rewrite Ef.
Qed.

Lemma compress_last_same (a b : blake2s_state) (msg : list Z) :
  same_words a b ->
  same_words (compress_last host a msg) (compress_last host b msg).
Proof.
  intros E. unfold compress_last. cbv zeta.
  apply compress_same; [|reflexivity].
  now apply set_lastblock_same, increment_counter_same.
Qed.

Lemma hash_blocks_same (fuel : nat) :
  forall (a b : blake2s_state) (msg : list Z),
    same_words a b ->
    same_words (hash_blocks host fuel a msg) (hash_blocks host fuel b msg).
Proof.
  induction fuel as [|fuel IH]; intros a b msg E; cbn [hash_blocks].
  - now apply compress_last_same.
  - destruct (Z.of_nat (length msg) >? 64).
    + apply IH. apply compress_same; [|reflexivity].
      now apply increment_counter_same.
    + now apply compress_last_same.
Qed.

Lemma hash_blocks_short (fuel : nat) (st : blake2s_state) (msg : list Z) :
  (length msg <= 64)%nat ->
  hash_blocks host fuel st msg = compress_last host st msg.
Proof.
  intros Hlen. destruct fuel; [reflexivity|]. cbn [hash_blocks].
  replace (Z.of_nat (length msg) >? 64) with false; [reflexivity|].
  symmetry. rewrite Z.gtb_ltb. apply Z.ltb_ge. lia.
Qed.

Lemma hash_blocks_long (fuel : nat) (st : blake2s_state) (msg : list Z) :
  (64 < length msg)%nat ->
  hash_blocks host (S fuel) st msg
  = hash_blocks host fuel
      (blake2s_compress host (blake2s_increment_counter st 64) (firstn 64 msg))
      (skipn 64 msg).
Proof.
  intros Hlen. cbn [hash_blocks].
  replace (Z.of_nat (length msg) >? 64) with true; [reflexivity|].
  symmetry. rewrite Z.gtb_ltb. apply Z.ltb_lt. lia.
Qed.

(** The last compression of [blake2s_final] is [compress_last] on the
    remainder. *)
Lemma final_last_step (st1 st1' : blake2s_state) :
  0 <= buflen st1 <= 64 -> length (buf st1) = 128%nat ->
  same_words st1 st1' ->
  same_words
    (blake2s_compress host
       (set_buf (blake2s_set_lastblock
                   (blake2s_increment_counter st1 (buflen st1)))
                (final_padded st1))
       (final_padded st1))
    (compress_last host st1' (firstn (Z.to_nat (buflen st1)) (buf st1))).
Proof.
  intros Hb Hl E. unfold compress_last. cbv zeta.
  assert (Hf : length (firstn (Z.to_nat (buflen st1)) (buf st1))
               = Z.to_nat (buflen st1)) by (rewrite length_firstn; lia).
  rewrite Hf, Z2Nat.id by lia.
  apply compress_same.
  - apply same_words_trans
      with (blake2s_set_lastblock (blake2s_increment_counter st1 (buflen st1))).
    + repeat split.
    + now apply set_lastblock_same, increment_counter_same.
  - unfold final_padded. rewrite firstn_app, Hf.
    rewrite (firstn_all2 (n := 64) (firstn _ (buf st1))) by lia.
    rewrite firstn_repeat_le by lia.
    symmetry. apply firstn_all2.
    rewrite length_app, Hf, repeat_length. lia.
Qed.

Lemma final_as_blocks (st : blake2s_state) (out : list Z) (outlen : Z)
      (fuel : nat) :
  state_ok st -> (Z.to_nat (buflen st) <= fuel)%nat ->
  same_words (fst (blake2s_final host st out outlen))
             (hash_blocks host fuel st (firstn (Z.to_nat (buflen st)) (buf st))).
Proof.
  intros Hok Hfuel.
  destruct (blake2s_final_state host st out outlen Hok) as [E _]. rewrite E.
  destruct (final_flushed_buf host st Hok) as (Hl1 & Hb1 & Ef1).
  pose proof Hok as [Hb Hl].
  assert (Hm : length (firstn (Z.to_nat (buflen st)) (buf st))
               = Z.to_nat (buflen st)) by (rewrite length_firstn; lia).
  destruct (buflen st >? 64) eqn:Eb; rewrite Z.gtb_ltb in Eb;
    [apply Z.ltb_lt in Eb | apply Z.ltb_ge in Eb].
  - destruct fuel as [|fuel]; [lia|].
    rewrite hash_blocks_long by lia.
    rewrite hash_blocks_short by (rewrite length_skipn; lia).
    rewrite firstn_firstn, skipn_firstn_comm.
    replace (Nat.min 64 (Z.to_nat (buflen st))) with 64%nat by lia.
    replace (Z.to_nat (buflen st) - 64)%nat with (Z.to_nat (buflen st - 64))
      by lia.
    rewrite <- Ef1.
    apply final_last_step; try assumption.
    unfold final_flushed.
    replace (buflen st >? 64) with true
      by (symmetry; rewrite Z.gtb_ltb; apply Z.ltb_lt; lia).
    apply same_words_trans
      with (blake2s_compress host (blake2s_increment_counter st 64) (buf st)).
    + repeat split.
    + apply compress_same; [apply same_words_refl|].
      now rewrite firstn_firstn.
  - rewrite hash_blocks_short by lia.
    rewrite <- Ef1.
    apply final_last_step; try assumption.
    unfold final_flushed.
    replace (buflen st >? 64) with false
      by (symmetry; rewrite Z.gtb_ltb; apply Z.ltb_ge; lia).
    apply same_words_refl.
Qed.

Lemma update_final_as_blocks (st : blake2s_state) (inp out : list Z)
      (outlen : Z) :
  state_ok st ->
  forall fuel,
    (Z.to_nat (buflen st) + length inp <= fuel)%nat ->
    same_words
      (fst (blake2s_final host (blake2s_update host st inp) out outlen))
      (hash_blocks host fuel st
                   (firstn (Z.to_nat (buflen st)) (buf st) ++ inp)).
Proof.
  revert st inp.
  apply (update_ind host
           (fun st inp =>
              forall fuel,
                (Z.to_nat (buflen st) + length inp <= fuel)%nat ->
                same_words
                  (fst (blake2s_final host (blake2s_update host st inp)
                                      out outlen))
                  (hash_blocks host fuel st
                     (firstn (Z.to_nat (buflen st)) (buf st) ++ inp)))).
  - intros st inp Hok Hle fuel Hfuel.
    rewrite <- (fits_prefix host st inp Hok Hle).
    destruct (blake2s_update_fits_fields host st inp Hok Hle)
      as (Eh & Et & Ef & En & _ & El & _).
    apply same_words_trans
      with (hash_blocks host fuel (blake2s_update host st inp)
              (firstn (Z.to_nat (buflen (blake2s_update host st inp)))
                      (buf (blake2s_update host st inp)))).
    + apply final_as_blocks; [now apply blake2s_update_ok|].
      rewrite El. destruct Hok. lia.
    + apply hash_blocks_same. repeat split; assumption.
  - intros st inp Hok Hgt IH fuel Hfuel.
    rewrite blake2s_update_exceeds by assumption.
    assert (Hin : 128 - buflen st <= Z.of_nat (length inp)) by lia.
    destruct (update_block_fields host st inp Hok Hin)
      as (Et & Eh & Ef & En & _ & Ebuf & El).
    pose proof (fill_buffer_length st inp Hok Hin) as Hfull.
    pose proof Hok as [Hb Hl].
    destruct fuel as [|fuel]; [lia|].
    assert (Hmsg : firstn (Z.to_nat (buflen st)) (buf st) ++ inp
                   = fill_buffer st inp
                     ++ skipn (Z.to_nat (128 - buflen st)) inp).
    { unfold fill_buffer. rewrite <- app_assoc. f_equal.
      symmetry. apply firstn_skipn. }
    rewrite Hmsg.
    rewrite hash_blocks_long by (rewrite length_app; lia).
    rewrite firstn_app, Hfull.
    replace (64 - 128)%nat with 0%nat by lia.
    rewrite firstn_O, app_nil_r.
    rewrite skipn_app, Hfull.
    replace (64 - 128)%nat with 0%nat by lia. rewrite skipn_O.
    assert (Hhalf : firstn (Z.to_nat
                              (buflen (update_block host st inp (buflen st)
                                         (128 - buflen st))))
                      (buf (update_block host st inp (buflen st)
                              (128 - buflen st)))
                    = skipn 64 (fill_buffer st inp)).
    { rewrite El, Ebuf. change (Z.to_nat 64) with 64%nat.
      assert (Hs : length (skipn 64 (fill_buffer st inp)) = 64%nat)
        by (rewrite length_skipn; lia).
      rewrite firstn_app, Hs, Nat.sub_diag, firstn_O, app_nil_r.
      apply firstn_all2. lia. }
    eapply same_words_trans.
    + apply (IH fuel). rewrite El, length_skipn. lia.
    + rewrite Hhalf. apply hash_blocks_same.
      destruct (compress_frame host (blake2s_increment_counter st 64)
                  (firstn 64 (fill_buffer st inp)))
        as (T1 & F1 & _ & _ & N1 & _).
      unfold same_words. rewrite T1, F1, N1.
      repeat split; assumption.
Qed.

End Blocks.

(** X21.  The double buffer does not change what is computed: from a
    well-formed state, the updates on any chunks followed by [blake2s_final]
    end with the chaining value, counter and flags that a plain iteration
    over the message reaches, which advances the counter by 64 and compresses
    64 bytes as long as more than 64 bytes are left, and then compresses the
    rest as the zero-padded last block with the last-block flag set.  The
    message is the bytes buffered before followed by the chunks. *)
Theorem streaming_is_block_iteration
        (host : byte_order) (st : blake2s_state) (chunks : list (list Z))
        (out : list Z) (outlen : Z) :
  state_ok st ->
  let msg := firstn (Z.to_nat (buflen st)) (buf st) ++ concat chunks in
  same_words
    (fst (blake2s_final host (update_all host st chunks) out outlen))
    (hash_blocks host (length msg) st msg).
Proof.
  intros Hok. cbv zeta. rewrite update_all_concat by assumption.
  apply update_final_as_blocks; [assumption|].
  rewrite length_app, length_firstn. destruct Hok. lia.
Qed.

Lemma streaming_is_block_iteration_witness :
  let st := blake2s_init_param LittleEndian (sequential_param LittleEndian 32 0) in
  let chunks := [repeat 1 70; repeat 2 70] in
  state_ok st
  /\ h (fst (blake2s_final LittleEndian (update_all LittleEndian st chunks)
                            (repeat 0 32) 32))
     = h (hash_blocks LittleEndian
                      (length (firstn (Z.to_nat (buflen st)) (buf st)
                               ++ concat chunks))
                      st
                      (firstn (Z.to_nat (buflen st)) (buf st) ++ concat chunks)).
Proof.
  cbv zeta.
  set (st := blake2s_init_param LittleEndian (sequential_param LittleEndian 32 0)).
  assert (Hok : state_ok st) by apply init_param_ok.
  split; [exact Hok|].
  exact (proj1 (streaming_is_block_iteration LittleEndian st
                  [repeat 1 70; repeat 2 70] (repeat 0 32) 32 Hok)).
Defined.

(** ** The one-shot hash, functionally *)

Lemma blake2s_final_serializes
      (host : byte_order) (st : blake2s_state) (out : list Z) (outlen : Z) :
  snd (blake2s_final host st out outlen)
  = memcpy out 0
      (flat_map (fun i => store32 host
                            (idx (h (fst (blake2s_final host st out outlen))) i))
                (seq 0 8))
      (Z.to_nat outlen).
Proof. reflexivity. Qed.

Lemma one_shot_from_state
      (host : byte_order) (st : blake2s_state) (inp out : list Z) (outlen : Z) :
  state_ok st -> buflen st = 0 ->
  0 <= outlen <= 32 -> length out = Z.to_nat outlen ->
  snd (blake2s_final host (blake2s_update host st inp) out outlen)
  = firstn (Z.to_nat outlen)
      (flat_map (fun i => store32 host
                            (idx (h (hash_blocks host (length inp) st inp)) i))
                (seq 0 8)).
Proof.
  intros Hok Hb Ho Hlen. rewrite blake2s_final_serializes.
  destruct (update_final_as_blocks host st inp out outlen Hok (length inp))
    as (Eh & _).
  { rewrite Hb. cbn. lia. }
  rewrite Hb in Eh. cbn [Z.to_nat firstn app] in Eh. rewrite Eh.
  unfold memcpy. cbn [firstn Nat.add app].
  rewrite (skipn_all2 out) by lia. now rewrite app_nil_r.
Qed.

(** X22.  The one-shot hash, functionally: for an output length from 1 to
    32, an output area of that size, and no key or a key of 1 to 32 bytes,
    [blake2s] returns the first [outlen] bytes of the chaining value, each
    word stored with [store32], that the plain iteration over 64-byte
    blocks reaches from the initial state for [outlen] and the key length,
    on the input, preceded by the zero-padded key block when there is a
    key. *)
Theorem one_shot_is_block_iteration
        (host : byte_order) (out inp : list Z) (key : option (list Z))
        (outlen keylen : Z) :
  1 <= outlen <= 32 -> length out = Z.to_nat outlen ->
  match key with None => True | Some _ => 1 <= keylen <= 32 end ->
  let kl := match key with None => 0 | Some _ => keylen end in
  let msg := match key with
             | None => inp
             | Some k => key_block k keylen ++ inp
             end in
  let st0 := blake2s_init_param host (sequential_param host outlen kl) in
  blake2s host (Some out) (Some inp) key outlen keylen
  = Ok (firstn (Z.to_nat outlen)
          (flat_map (fun i => store32 host
                                (idx (h (hash_blocks host (length msg) st0 msg)) i))
                    (seq 0 8))).
Proof.
  intros Ho Hlen Hk. cbv zeta. destruct key as [k|].
  - unfold blake2s.
    replace (keylen >? 0) with true
      by (rewrite Z.gtb_ltb; symmetry; apply Z.ltb_lt; lia).
    rewrite blake2s_init_key_eq by assumption.
    rewrite blake2s_update_app by apply init_param_ok.
    f_equal. apply one_shot_from_state;
      [apply init_param_ok | reflexivity | lia | assumption].
  - unfold blake2s. change (0 >? 0) with false. cbv iota.
    destruct (blake2s_init_succeeds host outlen Ho) as [st Hst].
    rewrite Hst. f_equal.
    assert (Est : st = blake2s_init_param host (sequential_param host outlen 0)).
    { revert Hst. unfold blake2s_init.
      destruct ((outlen =? 0) || (outlen >? BLAKE2S_OUTBYTES)); [discriminate|].
      now intros [= <-]. }
    subst st. apply one_shot_from_state;
      [apply init_param_ok | reflexivity | lia | assumption].
Qed.

Lemma one_shot_is_block_iteration_witness :
  1 <= 32 <= 32 /\ length (repeat 0 32) = Z.to_nat 32 /\ 1 <= 3 <= 32
  /\ blake2s LittleEndian (Some (repeat 0 32)) (Some (repeat 7 100))
             (Some [1; 2; 3]) 32 3
     = Ok (firstn (Z.to_nat 32)
             (flat_map
                (fun i =>
                   store32 LittleEndian
                     (idx (h (hash_blocks LittleEndian
                                (length (key_block [1; 2; 3] 3 ++ repeat 7 100))
                                (blake2s_init_param LittleEndian
                                   (sequential_param LittleEndian 32 3))
                                (key_block [1; 2; 3] 3 ++ repeat 7 100))) i))
                (seq 0 8))).
Proof.
  assert (Ho : 1 <= 32 <= 32) by lia.
  assert (Hl : length (repeat 0 32) = Z.to_nat 32) by reflexivity.
  assert (Hk : 1 <= 3 <= 32) by lia.
  split; [exact Ho | split; [exact Hl | split; [exact Hk |]]].
  exact (one_shot_is_block_iteration LittleEndian (repeat 0 32) (repeat 7 100)
           (Some [1; 2; 3]) 32 3 Ho Hl Hk).
Defined.
